(** * PPOAgent (agent/ppo.py): the PPO learning update

    A shallow embedding of [PPOAgent] and the properties of its update.

    Numeric model.  A torch tensor is flattened to the list of its
    elements, and float arithmetic is idealised as exact arithmetic on
    [R].  The one float value that is kept apart is NaN: [torch.mean] of
    an empty tensor and [torch.std] of fewer than two elements divide
    zero by zero.  A scalar that may be NaN is an [option R], with [None]
    for NaN; every operation propagates it, as IEEE arithmetic does.

    Errors.  A Python exception ([IndexError] of an index array,
    [ValueError] of [range] with step 0) is [None] of the result of the
    method that raises it.

    Sizes and counters are natural numbers. *)

From Stdlib Require Import Reals Lra Lia List Arith Permutation Bool.
From Stdlib Require String.
Import String.StringSyntax.
Delimit Scope string_scope with string.
Import ListNotations.

Set Warnings "-register-all".

Open Scope R_scope.

(** ** Tensors *)

Module Tensor.

Definition tensor := list R.

(** A float scalar: [None] is NaN. *)
Definition flt := option R.
Definition nan : flt := None.

(** Elementwise binary operation of two tensors of one shape. *)
Fixpoint map2 (f : R -> R -> R) (a b : tensor) : tensor :=
  match a, b with
  | x :: a', y :: b' => f x y :: map2 f a' b'
  | _, _ => []
  end.

Definition sum (t : tensor) : R := fold_right Rplus 0 t.

(** [torch.mean]: NaN on the empty tensor. *)
Definition mean (t : tensor) : flt :=
  match t with
  | [] => nan
  | _ :: _ => Some (sum t / INR (length t))
  end.

(** [torch.Tensor.std()]: the default is the unbiased estimator, with
    [numel - 1] as divisor; NaN on fewer than two elements. *)
Definition std (t : tensor) : flt :=
  match mean t with
  | Some mu =>
      if (length t <=? 1)%nat then nan
      else Some (sqrt (sum (map (fun x => (x - mu) ^ 2) t)
                       / INR (length t - 1)))
  | None => nan
  end.

(** [torch.clamp(x, lo, hi)] is [min(max(x, lo), hi)]. *)
Definition clamp (x lo hi : R) : R := Rmin (Rmax x lo) hi.

(** Scalar float arithmetic, NaN propagating. *)
Definition fneg (a : flt) : flt := option_map Ropp a.

Definition fadd (a b : flt) : flt :=
  match a, b with
  | Some x, Some y => Some (x + y)
  | _, _ => nan
  end.

(** A Python float constant times a float scalar. *)
Definition fscale (c : R) (a : flt) : flt := option_map (Rmult c) a.

(** [np.mean] of a Python list of floats: NaN on the empty list and as
    soon as one entry is NaN. *)
Fixpoint all_finite (l : list flt) : option (list R) :=
  match l with
  | [] => Some []
  | Some x :: l' => option_map (cons x) (all_finite l')
  | None :: _ => None
  end.

Definition np_mean (l : list flt) : flt :=
  match all_finite l with
  | Some t => mean t
  | None => nan
  end.

Definition eps : R := 1 / 100000000.

End Tensor.

Import Tensor.

(** ** Integer helpers of the minibatch loop *)

(** [range(start, stop, step)] for a positive step, by iteration; [fuel]
    bounds the number of elements. *)
Fixpoint range_from (fuel start stop step : nat) : list nat :=
  match fuel with
  | O => []
  | S fuel' =>
      if (start <? stop)%nat
      then start :: range_from fuel' (start + step) stop step
      else []
  end.

(** [range(0, stop, step)]: [ValueError] when the step is 0.  At most
    [stop] elements are below [stop], so [stop] is fuel enough. *)
Definition range0 (stop step : nat) : option (list nat) :=
  if (step =? 0)%nat then None else Some (range_from stop 0 stop step).

(** [xs[start:end]], a slice. *)
Definition slice {A : Type} (xs : list A) (start stop : nat) : list A :=
  firstn (stop - start) (skipn start xs).

(** [xs[idx]] with an index array: a fresh array of the selected
    elements, [IndexError] when an index is out of range. *)
Fixpoint take {A : Type} (xs : list A) (idx : list nat) : option (list A) :=
  match idx with
  | [] => Some []
  | i :: idx' =>
      match nth_error xs i, take xs idx' with
      | Some x, Some r => Some (x :: r)
      | _, _ => None
      end
  end.

(** ceil(n / m) on naturals, for m > 0. *)
Definition ceil_div (n m : nat) : nat := ((n + m - 1) / m)%nat.

(** Monadic fold of a loop body that may raise. *)
Fixpoint foldM {S A : Type} (f : S -> A -> option S) (l : list A) (s : S)
  : option S :=
  match l with
  | [] => Some s
  | x :: l' =>
      match f s x with
      | Some s' => foldM f l' s'
      | None => None
      end
  end.

(** ** What the agent is built on

    torch, numpy, models.py and buffer.py are not part of the sources:
    their types and functions are the fields of two classes. *)

Class Substrate : Type := {
  (** one row of a batch of states, of actions *)
  State : Type;
  Action : Type;
  (** the weight tensor of a Linear or Conv2d layer *)
  Weight : Type;
  (** what a network holds besides its [fcs] stack *)
  NetRest : Type;
  (** the generators of torch and of numpy *)
  TorchRng : Type;
  NpRng : Type;
  (** the state of the Adam optimizer *)
  OptState : Type;
  (** PPOReplayBuffer *)
  Buffer : Type
}.

(** ** Networks as module trees *)

(** [nn.Module]: Linear and Conv2d layers with their weight and optional
    bias; [Other] is any other module, with its children ([nn.Sequential],
    an activation). *)
Inductive nnModule `{Substrate} : Type :=
| Linear (weight : Weight) (bias : option tensor)
| Conv2d (weight : Weight) (bias : option tensor)
| Other (children : list nnModule).

Definition children `{Substrate} (m : nnModule) : list nnModule :=
  match m with
  | Other cs => cs
  | _ => []
  end.

(** PPOActor and ValueNet: the [fcs] stack that the agent reads, and the
    rest. *)
Record Net `{Substrate} : Type := mkNet {
  fcs : list nnModule;
  rest : NetRest
}.
Arguments mkNet {_} _ _.

(** What [buffer.make_dataset()] returns. *)
Record Dataset `{Substrate} : Type := mkDataset {
  states : list State;
  actions : list Action;
  old_log_probs : tensor;
  old_values : tensor;
  advantages : tensor;
  returns : tensor
}.
Arguments mkDataset {_} _ _ _ _ _ _.

Class Library `{Substrate} : Type := {
  (** [nn.init.orthogonal_(tensor, gain)] *)
  orthogonal_ : Weight -> R -> TorchRng -> Weight * TorchRng;
  (** [PPOActor.evaluate_actions(state, action)]: log_prob and entropy *)
  evaluate_actions : Net -> list State -> list Action -> tensor * tensor;
  (** [PPOActor.__call__(state, sample)]: action and log_prob *)
  actor_forward :
    Net -> list State -> bool -> TorchRng
    -> (list Action * tensor) * TorchRng;
  (** [ValueNet.__call__(state)] *)
  value_forward : Net -> list State -> tensor;
  (** [torch.optim.Adam(parameters, lr, eps)] *)
  adam : Net -> Net -> R -> R -> OptState;
  (** [zero_grad(); loss.backward(); clip_grad_norm_(parameters, max_norm);
      step()]: the loss is given as a function of the parameters of the
      actor and of the value network. *)
  backward_step :
    (Net -> Net -> flt) -> R -> Net -> Net -> OptState
    -> Net * Net * OptState;
  (** [np.random.shuffle(x)], in place *)
  shuffle : list nat -> NpRng -> list nat * NpRng;
  (** [buffer.size], [buffer.num_envs], [buffer.make_dataset()] *)
  buf_size : Buffer -> nat;
  buf_num_envs : Buffer -> nat;
  make_dataset : Buffer -> Dataset * Buffer
}.

(** ** The agent *)

Section Model.

Context `{L : Library}.

Record Agent : Type := mkAgent {
  value_net : Net;
  actor_net : Net;
  optimizer : OptState;
  tau : R;
  gamma : R;
  clip_range : R;
  value_coef : R;
  value_clip_range : option R;
  entropy_coef : R;
  update_epochs : nat;
  mini_batch_size : nat;
  train_step : nat
}.

Definition set_nets (self : Agent) (actor value : Net) : Agent :=
  mkAgent value actor (optimizer self) (tau self) (gamma self)
    (clip_range self) (value_coef self) (value_clip_range self)
    (entropy_coef self) (update_epochs self) (mini_batch_size self)
    (train_step self).

(** *** Orthogonal initialization *)

(** [init_weights(module, gain)] *)
Definition init_weights (gain : R) (module : nnModule) (g : TorchRng)
  : nnModule * TorchRng :=
  match module with
  | Linear w b =>
      let (w', g') := orthogonal_ w gain g in
      (Linear w' (option_map (map (fun _ => 0)) b), g')
  | Conv2d w b =>
      let (w', g') := orthogonal_ w gain g in
      (Conv2d w' (option_map (map (fun _ => 0)) b), g')
  | Other _ => (module, g)
  end.

(** [nn.Module.apply(fn)]: the children first, in order, then the module
    itself. *)
Fixpoint apply (fn : nnModule -> TorchRng -> nnModule * TorchRng)
  (m : nnModule) (g : TorchRng) : nnModule * TorchRng :=
  match m with
  | Other cs =>
      let fix apply_all (cs : list nnModule) (g : TorchRng)
        : list nnModule * TorchRng :=
        match cs with
        | [] => ([], g)
        | c :: cs' =>
            let (c', g1) := apply fn c g in
            let (cs'', g2) := apply_all cs' g1 in
            (c' :: cs'', g2)
        end in
      let (cs', g') := apply_all cs g in
      fn (Other cs') g'
  | _ => fn m g
  end.

(** The loop of [apply] over the children, on its own. *)
Definition apply_all (fn : nnModule -> TorchRng -> nnModule * TorchRng)
  : list nnModule -> TorchRng -> list nnModule * TorchRng :=
  fix apply_all (cs : list nnModule) (g : TorchRng) :=
    match cs with
    | [] => ([], g)
    | c :: cs' =>
        let (c', g1) := apply fn c g in
        let (cs'', g2) := apply_all cs' g1 in
        (c' :: cs'', g2)
    end.

(** [ortho_init]: the four slices of [module_gains] are taken before
    the loop and are visited in insertion order; a slice is a new
    [nn.Sequential] over the same layer objects. *)
Definition ortho_init (self : Agent) (g : TorchRng) : Agent * TorchRng :=
  let actor_head := Other (firstn 4 (fcs (actor_net self))) in
  let value_head := Other (firstn 4 (fcs (value_net self))) in
  let actor_tail := Other (skipn 4 (fcs (actor_net self))) in
  let value_tail := Other (skipn 4 (fcs (value_net self))) in
  let (actor_head', g1) := apply (init_weights (sqrt 2)) actor_head g in
  let (value_head', g2) := apply (init_weights (sqrt 2)) value_head g1 in
  let (actor_tail', g3) := apply (init_weights (1 / 100)) actor_tail g2 in
  let (value_tail', g4) := apply (init_weights 1) value_tail g3 in
  (set_nets self
     (mkNet (children actor_head' ++ children actor_tail')
            (rest (actor_net self)))
     (mkNet (children value_head' ++ children value_tail')
            (rest (value_net self))),
   g4).

(** [__init__]: the two networks arrive as constructed by [ValueNet] and
    [PPOActor]. *)
Definition PPOAgent_init (value_net0 actor_net0 : Net) (lr gamma0 tau0 : R)
  (nstep : nat) (clip_range0 : R) (value_clip_range0 : option R)
  (value_coef0 entropy_coef0 : R) (update_epochs0 mini_batch_size0 : nat)
  (g : TorchRng) : Agent * TorchRng :=
  ortho_init
    (mkAgent value_net0 actor_net0
       (adam actor_net0 value_net0 lr (1 / 100000))
       tau0 (gamma0 ^ nstep) clip_range0 value_coef0 value_clip_range0
       entropy_coef0 update_epochs0 mini_batch_size0 0)
    g.

(** *** Acting *)

Definition get_value (self : Agent) (state : list State) : tensor :=
  value_forward (value_net self) state.

Definition get_action (self : Agent) (state : list State) (sample : bool)
  (g : TorchRng) : list Action * TorchRng :=
  let '(action, _, g') := actor_forward (actor_net self) state sample g in
  (action, g').

Definition act (self : Agent) (state : list State) (sample : bool)
  (g : TorchRng) : (list Action * tensor) * TorchRng :=
  actor_forward (actor_net self) state sample g.

(** *** Losses *)

Definition get_new_log_prob_entropy_value (self : Agent)
  (state : list State) (action : list Action) : tensor * tensor * tensor :=
  let (log_prob, entropy) :=
    evaluate_actions (actor_net self) state action in
  (log_prob, entropy, value_forward (value_net self) state).

Definition get_clipped_surrogate_loss (self : Agent)
  (log_prob old_log_prob advantage : tensor) : flt :=
  let log_ratio := map2 Rminus log_prob old_log_prob in
  let ratio := map exp log_ratio in
  let pg_loss1 := map2 Rmult advantage ratio in
  let pg_loss2 :=
    map2 Rmult advantage
      (map (fun r => clamp r (1 - clip_range self) (1 + clip_range self))
         ratio) in
  fneg (mean (map2 Rmin pg_loss1 pg_loss2)).

(** [torch.clamp] with tensor bounds. *)
Fixpoint clamp_t (x lo hi : tensor) : tensor :=
  match x, lo, hi with
  | a :: x', l :: lo', h :: hi' => clamp a l h :: clamp_t x' lo' hi'
  | _, _, _ => []
  end.

Definition get_value_loss (self : Agent) (value old_value returns : tensor)
  : flt :=
  let value_clipped :=
    match value_clip_range self with
    | Some c =>
        clamp_t value
          (map (fun o => o - c) old_value)
          (map (fun o => o + c) old_value)
    | None => value
    end in
  let vf_loss1 := map (fun d => d ^ 2) (map2 Rminus value returns) in
  let vf_loss2 := map (fun d => d ^ 2) (map2 Rminus value_clipped returns) in
  let vf_loss := map2 Rmin vf_loss1 vf_loss2 in
  mean vf_loss.

Definition get_entropy_loss (self : Agent) (entropy : tensor) : flt :=
  fneg (mean entropy).

(** *** One optimization step *)

Record Batch : Type := mkBatch {
  b_state : list State;
  b_action : list Action;
  b_old_log_prob : tensor;
  b_old_value : tensor;
  b_advantage : tensor;
  b_returns : tensor
}.

(** The dictionary of the three [.item()] values that [update_step] and
    [update] return. *)
Record LossDict : Type := mkLossDict {
  policy_loss : flt;
  value_loss : flt;
  entropy_loss : flt
}.

(** [(advantage - advantage.mean()) / (advantage.std() + 1e-8)]: [None]
    is the tensor that is NaN everywhere. *)
Definition normalize_advantage (advantage : tensor) : option tensor :=
  match mean advantage, std advantage with
  | Some mu, Some sd => Some (map (fun a => (a - mu) / (sd + eps)) advantage)
  | _, _ => None
  end.

(** Lines 138 to 149 of [update_step]: the three losses of a batch under
    the current parameters. *)
Definition batch_losses (self : Agent) (batch : Batch) : LossDict :=
  let advantage := normalize_advantage (b_advantage batch) in
  let '(log_prob, entropy, value) :=
    get_new_log_prob_entropy_value self (b_state batch) (b_action batch) in
  let policy_loss :=
    match advantage with
    | Some advantage =>
        get_clipped_surrogate_loss self log_prob (b_old_log_prob batch)
          advantage
    | None => nan
    end in
  let value_loss :=
    get_value_loss self value (b_old_value batch) (b_returns batch) in
  let entropy_loss := get_entropy_loss self entropy in
  mkLossDict policy_loss value_loss entropy_loss.

(** Line 152, the total loss. *)
Definition total_loss (self : Agent) (d : LossDict) : flt :=
  fadd (fadd (policy_loss d) (fscale (value_coef self) (value_loss d)))
       (fscale (entropy_coef self) (entropy_loss d)).

(** [update_step]: [loss.backward()] differentiates the total loss as a
    function of the parameters of the two networks. *)
Definition update_step (self : Agent) (batch : Batch) : LossDict * Agent :=
  let d := batch_losses self batch in
  let loss :=
    fun actor value => total_loss self
                         (batch_losses (set_nets self actor value) batch) in
  let '(actor', value', optimizer') :=
    backward_step loss (1 / 2) (actor_net self) (value_net self)
      (optimizer self) in
  (d,
   mkAgent value' actor' optimizer' (tau self) (gamma self)
     (clip_range self) (value_coef self) (value_clip_range self)
     (entropy_coef self) (update_epochs self) (mini_batch_size self)
     (train_step self + 1)).

(** *** The update over a rollout buffer *)

(** The six arrays of the dataset at an index array. *)
Definition gather (ds : Dataset) (minibatch_idx : list nat) : option Batch :=
  match take (states ds) minibatch_idx, take (actions ds) minibatch_idx,
        take (old_log_probs ds) minibatch_idx,
        take (old_values ds) minibatch_idx,
        take (advantages ds) minibatch_idx,
        take (returns ds) minibatch_idx with
  | Some s, Some a, Some l, Some v, Some ad, Some r =>
      Some (mkBatch s a l v ad r)
  | _, _, _, _, _, _ => None
  end.

(** The objects in reach of the loops of [update]: the agent, numpy's
    generator, the buffer, the dataset, the index array (shuffled in
    place) and the three lists. *)
Record Loop : Type := mkLoop {
  l_self : Agent;
  l_rng : NpRng;
  l_buffer : Buffer;
  l_dataset : Dataset;
  l_indices : list nat;
  l_policy_losses : list flt;
  l_value_losses : list flt;
  l_entropy_losses : list flt
}.

(** The body of the loop over [start]. *)
Definition minibatch_body (e : nat) (st : Loop) (start : nat) : option Loop :=
  let stop := (start + mini_batch_size (l_self st))%nat in
  let minibatch_idx := slice (l_indices st) start stop in
  match gather (l_dataset st) minibatch_idx with
  | None => None
  | Some batch =>
      let (ret_dict, self') := update_step (l_self st) batch in
      if (Z.of_nat e =? Z.of_nat (update_epochs self') - 1)%Z
      then
        Some (mkLoop self' (l_rng st) (l_buffer st) (l_dataset st)
                (l_indices st)
                (l_policy_losses st ++ [policy_loss ret_dict])
                (l_value_losses st ++ [value_loss ret_dict])
                (l_entropy_losses st ++ [entropy_loss ret_dict]))
      else
        Some (mkLoop self' (l_rng st) (l_buffer st) (l_dataset st)
                (l_indices st)
                (l_policy_losses st) (l_value_losses st)
                (l_entropy_losses st))
  end.

(** The body of the loop over [e]. *)
Definition epoch_body (buffer_size : nat) (st : Loop) (e : nat)
  : option Loop :=
  let (indices', rng') := shuffle (l_indices st) (l_rng st) in
  let st' :=
    mkLoop (l_self st) rng' (l_buffer st) (l_dataset st) indices'
      (l_policy_losses st) (l_value_losses st) (l_entropy_losses st) in
  match range0 buffer_size (mini_batch_size (l_self st')) with
  | None => None
  | Some starts => foldM (minibatch_body e) starts st'
  end.

(** [update(buffer)] up to its [return]: the state after the two loops. *)
Definition update_loops (self : Agent) (buffer : Buffer) (rng : NpRng)
  : option Loop :=
  let buffer_size := (buf_size buffer * buf_num_envs buffer)%nat in
  let indices := seq 0 buffer_size in
  let (ds, buffer') := make_dataset buffer in
  foldM (epoch_body buffer_size) (seq 0 (update_epochs self))
    (mkLoop self rng buffer' ds indices [] [] []).

(** [update(buffer)]: the loss statistics, and the agent, numpy's
    generator and the buffer after the call. *)
Definition update (self : Agent) (buffer : Buffer) (rng : NpRng)
  : option (LossDict * Agent * NpRng * Buffer) :=
  match update_loops self buffer rng with
  | None => None
  | Some st =>
      Some (mkLossDict (np_mean (l_policy_losses st))
              (np_mean (l_value_losses st))
              (np_mean (l_entropy_losses st)),
            l_self st, l_rng st, l_buffer st)
  end.

(** *** Checkpoints *)

(** The files under [models/], by path; a file holds the state dict of a
    network. *)
Definition Files : Type := list (String.string * Net).

Fixpoint read_file (fs : Files) (path : String.string) : option Net :=
  match fs with
  | [] => None
  | (p, n) :: fs' => if String.eqb p path then Some n else read_file fs' path
  end.

Definition model_path (name_prefix suffix : String.string) : String.string :=
  String.append "models/"%string (String.append name_prefix suffix).

Definition save (self : Agent) (name_prefix : String.string) (fs : Files)
  : Files :=
  (model_path name_prefix "actor.pt"%string, actor_net self)
  :: (model_path name_prefix "value.pt"%string, value_net self) :: fs.

Definition load (self : Agent) (name_prefix : String.string) (fs : Files)
  : option Agent :=
  match read_file fs (model_path name_prefix "value.pt"%string) with
  | None => None
  | Some value =>
      match read_file fs (model_path name_prefix "actor.pt"%string) with
      | None => None
      | Some actor => Some (set_nets self actor value)
      end
  end.

(** *** The agent as a state machine *)

(** The agent with the mutable objects around it. *)
Record World : Type := mkWorld {
  w_agent : Agent;
  w_torch : TorchRng;
  w_numpy : NpRng;
  w_files : Files
}.

(** The methods of [PPOAgent], with their arguments. *)
Inductive Method : Type :=
| m_ortho_init
| m_repr
| m_get_value (state : list State)
| m_get_action (state : list State) (sample : bool)
| m_act (state : list State) (sample : bool)
| m_get_new_log_prob_entropy_value (state : list State) (action : list Action)
| m_get_clipped_surrogate_loss (log_prob old_log_prob advantage : tensor)
| m_get_value_loss (value old_value returns : tensor)
| m_get_entropy_loss (entropy : tensor)
| m_update_step (batch : Batch)
| m_update (buffer : Buffer)
| m_save (name_prefix : String.string)
| m_load (name_prefix : String.string).

(** The world after a call; [None] when the call raises. *)
Definition call (m : Method) (w : World) : option World :=
  match m with
  | m_ortho_init =>
      let (self', g') := ortho_init (w_agent w) (w_torch w) in
      Some (mkWorld self' g' (w_numpy w) (w_files w))
  | m_get_action state sample =>
      let (_, g') := get_action (w_agent w) state sample (w_torch w) in
      Some (mkWorld (w_agent w) g' (w_numpy w) (w_files w))
  | m_act state sample =>
      let (_, g') := act (w_agent w) state sample (w_torch w) in
      Some (mkWorld (w_agent w) g' (w_numpy w) (w_files w))
  | m_update_step batch =>
      let (_, self') := update_step (w_agent w) batch in
      Some (mkWorld self' (w_torch w) (w_numpy w) (w_files w))
  | m_update buffer =>
      match update (w_agent w) buffer (w_numpy w) with
      | None => None
      | Some (_, self', rng', _) =>
          Some (mkWorld self' (w_torch w) rng' (w_files w))
      end
  | m_save name_prefix =>
      Some (mkWorld (w_agent w) (w_torch w) (w_numpy w)
              (save (w_agent w) name_prefix (w_files w)))
  | m_load name_prefix =>
      match load (w_agent w) name_prefix (w_files w) with
      | None => None
      | Some self' => Some (mkWorld self' (w_torch w) (w_numpy w) (w_files w))
      end
  | m_repr | m_get_value _ | m_get_new_log_prob_entropy_value _ _
  | m_get_clipped_surrogate_loss _ _ _ | m_get_value_loss _ _ _
  | m_get_entropy_loss _ => Some w
  end.

(** A sequence of calls. *)
Definition run (ms : list Method) (w : World) : option World :=
  foldM (fun w m => call m w) ms w.

(** *** The losses as the specification words them *)

Fixpoint map3 (f : R -> R -> R -> R) (a b c : tensor) : tensor :=
  match a, b, c with
  | x :: a', y :: b', z :: c' => f x y z :: map3 f a' b' c'
  | _, _, _ => []
  end.

(** The PPO clipped surrogate objective, negated: with [r] the
    probability ratio and [A] the advantage,
    [- mean (min (r * A) (clip r (1 - c) (1 + c) * A))]. *)
Definition clipped_surrogate_spec (c : R) (log_prob old_log_prob advantage
  : tensor) : flt :=
  fneg (mean (map3 (fun lp olp A =>
                      let r := exp (lp - olp) in
                      Rmin (r * A) (clamp r (1 - c) (1 + c) * A))
                log_prob old_log_prob advantage)).

(** Mean squared error. *)
Definition mse_spec (value returns : tensor) : flt :=
  mean (map2 (fun v r => (v - r) ^ 2) value returns).

(** PPO value clipping: the mean of the larger of the unclipped and the
    clipped squared error. *)
Definition value_clipping_spec (c : R) (value old_value returns : tensor)
  : flt :=
  mean (map3 (fun v o r =>
                Rmax ((v - r) ^ 2) ((clamp v (o - c) (o + c) - r) ^ 2))
          value old_value returns).

(** What [get_value_loss] computes with a clip range: the smaller of the
    two squared errors. *)
Definition value_clipping_min (c : R) (value old_value returns : tensor)
  : flt :=
  mean (map3 (fun v o r =>
                Rmin ((v - r) ^ 2) ((clamp v (o - c) (o + c) - r) ^ 2))
          value old_value returns).

(** *** The schedule of an update *)

(** All six arrays of the dataset have [n] rows. *)
Definition dataset_rows (ds : Dataset) (n : nat) : Prop :=
  length (states ds) = n /\ length (actions ds) = n
  /\ length (old_log_probs ds) = n /\ length (old_values ds) = n
  /\ length (advantages ds) = n /\ length (returns ds) = n.

(** The index array after each of [E] successive shuffles. *)
Fixpoint epoch_orders (E : nat) (indices : list nat) (rng : NpRng)
  : list (list nat) :=
  match E with
  | O => []
  | S E' =>
      let (indices', rng') := shuffle indices rng in
      indices' :: epoch_orders E' indices' rng'
  end.

(** numpy's generator after [E] shuffles. *)
Fixpoint rng_after (E : nat) (indices : list nat) (rng : NpRng) : NpRng :=
  match E with
  | O => rng
  | S E' =>
      let (indices', rng') := shuffle indices rng in
      rng_after E' indices' rng'
  end.

(** The minibatches of one epoch: the slices of the index array at the
    starts [0, m, 2m, ...] below [n]. *)
Definition minibatches (m n : nat) (indices : list nat) : list (list nat) :=
  map (fun start => slice indices start (start + m)) (range_from n 0 n m).

(** The minibatches of an update, epoch by epoch. *)
Definition schedule (E m n : nat) (rng : NpRng) : list (list (list nat)) :=
  map (minibatches m n) (epoch_orders E (seq 0 n) rng).

(** [update_step] on the batches of a list of minibatches, in order: the
    dictionaries returned and the agent after the last step. *)
Fixpoint steps (ds : Dataset) (self : Agent) (idxs : list (list nat))
  : option (list LossDict * Agent) :=
  match idxs with
  | [] => Some ([], self)
  | idx :: idxs' =>
      match gather ds idx with
      | None => None
      | Some batch =>
          let (d, self') := update_step self batch in
          match steps ds self' idxs' with
          | None => None
          | Some (dicts, self'') => Some (d :: dicts, self'')
          end
      end
  end.

(** [steps] epoch by epoch: the dictionaries of every epoch. *)
Fixpoint run_epochs (ds : Dataset) (self : Agent)
  (sched : list (list (list nat))) : option (list (list LossDict) * Agent) :=
  match sched with
  | [] => Some ([], self)
  | epoch :: sched' =>
      match steps ds self epoch with
      | None => None
      | Some (dicts, self') =>
          match run_epochs ds self' sched' with
          | None => None
          | Some (dictss, self'') => Some (dicts :: dictss, self'')
          end
      end
  end.

(** The dictionaries that epoch [e] of [E] appends to the three lists. *)
Definition logged (E e : nat) (dicts : list LossDict) : list LossDict :=
  if (Z.of_nat e =? Z.of_nat E - 1)%Z then dicts else [].

(** The dictionaries that the epochs [k], [k + 1], ... of [E] append. *)
Fixpoint logged_from (E k : nat) (dictss : list (list LossDict))
  : list LossDict :=
  match dictss with
  | [] => []
  | dicts :: dictss' => logged E k dicts ++ logged_from E (S k) dictss'
  end.

(** The statistics that [update] computes from logged dictionaries. *)
Definition statistics (dicts : list LossDict) : LossDict :=
  mkLossDict (np_mean (map policy_loss dicts))
    (np_mean (map value_loss dicts))
    (np_mean (map entropy_loss dicts)).

(** How much a call adds to [train_step]. *)
Definition steps_of (m : Method) (w : World) : nat :=
  match m with
  | m_update_step _ => 1
  | m_update buffer =>
      update_epochs (w_agent w)
      * ceil_div (buf_size buffer * buf_num_envs buffer)
          (mini_batch_size (w_agent w))
  | _ => 0
  end.

(** [buffer.size * buffer.num_envs] *)
Definition buffer_size (buffer : Buffer) : nat :=
  (buf_size buffer * buf_num_envs buffer)%nat.

(** The minibatches of [update(buffer)], epoch by epoch. *)
Definition update_schedule (self : Agent) (buffer : Buffer) (rng : NpRng)
  : list (list (list nat)) :=
  schedule (update_epochs self) (mini_batch_size self) (buffer_size buffer)
    rng.

(** A minibatch is well formed for batch size [m]: not empty and at most
    [m] indices. *)
Definition minibatch_ok (m : nat) (idx : list nat) : Prop :=
  (0 < length idx <= m)%nat.

(** An epoch partitions the order [p] into consecutive minibatches of
    size [m], the last possibly smaller. *)
Definition partitions (m : nat) (p : list nat) (epoch : list (list nat))
  : Prop :=
  concat epoch = p
  /\ Forall (minibatch_ok m) epoch
  /\ Forall (fun idx => length idx = m) (removelast epoch).

(** One epoch: its minibatches partition the shuffled index array, every
    index is in exactly one of them, and there are ceil (n / m). *)
Definition epoch_ok (m n : nat) (order : list nat) (epoch : list (list nat))
  : Prop :=
  Permutation order (seq 0 n)
  /\ partitions m order epoch
  /\ Permutation (concat epoch) (seq 0 n)
  /\ length epoch = ceil_div n m.

(** *** Orthogonally initialized modules *)

(** [ortho gain m m']: [m'] is [m] with the weight of every Linear and
    Conv2d submodule replaced by a draw of [orthogonal_] with this gain
    and every bias that is there set to zeros. *)
Inductive ortho (gain : R) : nnModule -> nnModule -> Prop :=
| ortho_Linear w b g :
    ortho gain (Linear w b)
      (Linear (fst (orthogonal_ w gain g)) (option_map (map (fun _ => 0)) b))
| ortho_Conv2d w b g :
    ortho gain (Conv2d w b)
      (Conv2d (fst (orthogonal_ w gain g)) (option_map (map (fun _ => 0)) b))
| ortho_Other cs cs' :
    Forall2 (ortho gain) cs cs' -> ortho gain (Other cs) (Other cs').

(** The bias of every Linear and Conv2d submodule, if there, is zero
    everywhere. *)
Inductive bias_zero : nnModule -> Prop :=
| bias_zero_Linear w b :
    (forall t, b = Some t -> Forall (fun x => x = 0) t) ->
    bias_zero (Linear w b)
| bias_zero_Conv2d w b :
    (forall t, b = Some t -> Forall (fun x => x = 0) t) ->
    bias_zero (Conv2d w b)
| bias_zero_Other cs : Forall bias_zero cs -> bias_zero (Other cs).

(** The agent [self'] holds the two networks [actor0] and [value0],
    orthogonally initialized: gain sqrt 2 on the first four entries of
    either [fcs] stack, gain 0.01 on the rest of the actor's, gain 1 on the
    rest of the value network's, and no bias left that is not zero. *)
Definition ortho_initialized (actor0 value0 : Net) (self' : Agent) : Prop :=
  Forall2 (ortho (sqrt 2)) (firstn 4 (fcs actor0))
    (firstn 4 (fcs (actor_net self')))
  /\ Forall2 (ortho (1 / 100)) (skipn 4 (fcs actor0))
       (skipn 4 (fcs (actor_net self')))
  /\ Forall2 (ortho (sqrt 2)) (firstn 4 (fcs value0))
       (firstn 4 (fcs (value_net self')))
  /\ Forall2 (ortho 1) (skipn 4 (fcs value0))
       (skipn 4 (fcs (value_net self')))
  /\ Forall bias_zero (fcs (actor_net self'))
  /\ Forall bias_zero (fcs (value_net self'))
  /\ rest (actor_net self') = rest actor0
  /\ rest (value_net self') = rest value0.

(** *** Further notions *)


(** Two agents with the same hyperparameters. *)
Definition same_config (a b : Agent) : Prop :=
  tau a = tau b /\ gamma a = gamma b /\ clip_range a = clip_range b
  /\ value_coef a = value_coef b
  /\ value_clip_range a = value_clip_range b
  /\ entropy_coef a = entropy_coef b
  /\ update_epochs a = update_epochs b
  /\ mini_batch_size a = mini_batch_size b.

(** Two module trees of one shape: the same kinds of modules in the same
    places, a bias where the other has one and of the same length. *)
Inductive same_shape : nnModule -> nnModule -> Prop :=
| same_shape_Linear w b w' b' :
    option_map (@length R) b = option_map (@length R) b' ->
    same_shape (Linear w b) (Linear w' b')
| same_shape_Conv2d w b w' b' :
    option_map (@length R) b = option_map (@length R) b' ->
    same_shape (Conv2d w b) (Conv2d w' b')
| same_shape_Other cs cs' :
    Forall2 same_shape cs cs' -> same_shape (Other cs) (Other cs').

(** One of the six arrays of the dataset has fewer than [n] rows. *)
Definition dataset_short (ds : Dataset) (n : nat) : Prop :=
  (length (states ds) < n)%nat \/ (length (actions ds) < n)%nat
  \/ (length (old_log_probs ds) < n)%nat \/ (length (old_values ds) < n)%nat
  \/ (length (advantages ds) < n)%nat \/ (length (returns ds) < n)%nat.

End Model.

(** ** A small instance

    Layers with a number as weight, networks that return constants, an
    optimizer that leaves the parameters alone, and reversal as the
    shuffle.  A buffer is the list of its rows. *)

Definition toy_row : Type := (nat * nat * (R * R) * (R * R))%type.

#[local] Instance toy_substrate : Substrate := {|
  State := nat;
  Action := nat;
  Weight := R;
  NetRest := unit;
  TorchRng := nat;
  NpRng := nat;
  OptState := unit;
  Buffer := list toy_row
|}.

Definition toy_dataset (b : list toy_row) : Dataset :=
  mkDataset
    (map (fun r => fst (fst (fst r))) b)
    (map (fun r => snd (fst (fst r))) b)
    (map (fun r => fst (snd (fst r))) b)
    (map (fun r => snd (snd (fst r))) b)
    (map (fun r => fst (snd r)) b)
    (map (fun r => snd (snd r)) b).

#[local] Instance toy_library : Library := {|
  orthogonal_ := fun _ gain g => (gain, S g);
  evaluate_actions := fun _ state _ =>
    (map (fun _ => 0) state, map (fun _ => 1) state);
  actor_forward := fun _ state _ g => ((state, map (fun _ => 0) state), S g);
  value_forward := fun _ state => map (fun _ => 0) state;
  adam := fun _ _ _ _ => tt;
  backward_step := fun _ _ actor value o => (actor, value, o);
  shuffle := fun l g => (rev l, S g);
  buf_size := fun b => length b;
  buf_num_envs := fun _ => 1%nat;
  make_dataset := fun b => (toy_dataset b, b)
|}.

Definition toy_net : Net :=
  mkNet [Linear 1 (Some [1; 2]); Other []; Linear 1 None; Other [];
         Other [Linear 1 (Some [3])]] tt.

(** An agent with the defaults of [__init__], a value clip range [c] and
    minibatches of [m]. *)
Definition toy_agent (c : option R) (m : nat) : Agent :=
  mkAgent toy_net toy_net tt (1 / 200) (99 / 100) (1 / 5) (1 / 2) c (1 / 100)
    2 m 0.

Definition toy_buffer : list toy_row :=
  [(0%nat, 0%nat, (0, 0), (1, 1)); (1%nat, 1%nat, (0, 0), (2, 1));
   (2%nat, 2%nat, (0, 0), (3, 1))].

(** An agent that makes no epoch, a world around the agent with two
    epochs, a batch of two rows, and the same library with two
    environments per row, so that the dataset is shorter than
    [buffer_size]. *)
Definition toy_idle_agent : Agent :=
  mkAgent toy_net toy_net tt (1 / 200) (99 / 100) (1 / 5) (1 / 2) None
    (1 / 100) 0 2 0.

Definition toy_world : World := mkWorld (toy_agent None 2) 0%nat 0%nat [].

Definition toy_batch : Batch :=
  mkBatch [0%nat; 1%nat] [0%nat; 1%nat] [0; 0] [0; 0] [1; 2] [1; 1].

Definition short_library : Library := {|
  orthogonal_ := fun _ gain g => (gain, S g);
  evaluate_actions := fun _ state _ =>
    (map (fun _ => 0) state, map (fun _ => 1) state);
  actor_forward := fun _ state _ g => ((state, map (fun _ => 0) state), S g);
  value_forward := fun _ state => map (fun _ => 0) state;
  adam := fun _ _ _ _ => tt;
  backward_step := fun _ _ actor value o => (actor, value, o);
  shuffle := fun l g => (rev l, S g);
  buf_size := fun b => length b;
  buf_num_envs := fun _ => 2%nat;
  make_dataset := fun b => (toy_dataset b, b)
|}.

(** ** Properties *)

Section Properties.

Context `{L : Library}.

(** *** Elementwise operations *)

Lemma map2_length (f : R -> R -> R) (a b : tensor) :
  length a = length b -> length (map2 f a b) = length a.
Proof.
  revert b; induction a as [|x a IH]; intros [|y b] Hl; simpl in *;
    try discriminate; auto.
Qed.

Lemma surrogate_fusion (c : R) (log_prob old_log_prob advantage : tensor) :
  map2 Rmin
    (map2 Rmult advantage (map exp (map2 Rminus log_prob old_log_prob)))
    (map2 Rmult advantage
       (map (fun r => clamp r (1 - c) (1 + c))
          (map exp (map2 Rminus log_prob old_log_prob))))
  = map3 (fun lp olp A =>
            let r := exp (lp - olp) in
            Rmin (r * A) (clamp r (1 - c) (1 + c) * A))
      log_prob old_log_prob advantage.
Proof.
  revert old_log_prob advantage.
  induction log_prob as [|lp log_prob IH]; intros [|olp old] [|A adv];
    simpl; try reflexivity.
  rewrite IH. f_equal.
  rewrite (Rmult_comm A (exp (lp - olp))).
  rewrite (Rmult_comm A (clamp (exp (lp - olp)) (1 - c) (1 + c))).
  reflexivity.
Qed.

Lemma Rmin_same (x : R) : Rmin x x = x.
Proof. unfold Rmin; destruct (Rle_dec x x); reflexivity. Qed.

Lemma map2_Rmin_same (t : tensor) : map2 Rmin t t = t.
Proof.
  induction t as [|x t IH]; simpl; [reflexivity|].
  now rewrite Rmin_same, IH.
Qed.

Lemma sq_diff_fusion (value returns : tensor) :
  map (fun d => d ^ 2) (map2 Rminus value returns)
  = map2 (fun v r => (v - r) ^ 2) value returns.
Proof.
  revert returns; induction value as [|v value IH]; intros [|r returns];
    cbn [map map2]; try reflexivity.
  now rewrite IH.
Qed.

Lemma value_min_fusion (c : R) (value old_value returns : tensor) :
  map2 Rmin
    (map (fun d => d ^ 2) (map2 Rminus value returns))
    (map (fun d => d ^ 2)
       (map2 Rminus
          (clamp_t value (map (fun o => o - c) old_value)
             (map (fun o => o + c) old_value))
          returns))
  = map3 (fun v o r =>
            Rmin ((v - r) ^ 2) ((clamp v (o - c) (o + c) - r) ^ 2))
      value old_value returns.
Proof.
  revert old_value returns.
  induction value as [|v value IH]; intros [|o old] [|r returns];
    cbn [map map2 map3 clamp_t]; try reflexivity.
  now rewrite IH.
Qed.

(** *** The clipped surrogate loss *)

(** C1: on tensors of one shape [get_clipped_surrogate_loss] is the
    negative mean of [min (r * A) (clip r (1 - clip_range) (1 + clip_range)
    * A)] with [r = exp (log_prob - old_log_prob)]. *)
Theorem get_clipped_surrogate_loss_spec (self : Agent)
  (log_prob old_log_prob advantage : tensor) :
  length log_prob = length advantage ->
  length old_log_prob = length advantage ->
  get_clipped_surrogate_loss self log_prob old_log_prob advantage
  = clipped_surrogate_spec (clip_range self) log_prob old_log_prob advantage.
Proof.
  intros _ _.
  unfold get_clipped_surrogate_loss, clipped_surrogate_spec.
  now rewrite surrogate_fusion.
Qed.

(** *** The value loss *)

Lemma get_value_loss_None (self : Agent) (value old_value returns : tensor) :
  value_clip_range self = None ->
  get_value_loss self value old_value returns = mse_spec value returns.
Proof.
  intros Hc. unfold get_value_loss, mse_spec. rewrite Hc.
  now rewrite map2_Rmin_same, sq_diff_fusion.
Qed.

(** C3: without a value clip range [get_value_loss] is the mean squared
    error of [value] against [returns], whatever [old_value] is. *)
Theorem get_value_loss_mse (self : Agent) (value old_value returns : tensor) :
  value_clip_range self = None ->
  length value = length returns ->
  length old_value = length returns ->
  get_value_loss self value old_value returns = mse_spec value returns
  /\ forall old_value' : tensor,
       get_value_loss self value old_value' returns
       = get_value_loss self value old_value returns.
Proof.
  intros Hc _ _. split.
  - now apply get_value_loss_None.
  - intros old'. now rewrite !get_value_loss_None.
Qed.

(** With a clip range the loss of the code is the mean of the smaller of
    the two squared errors. *)
Lemma get_value_loss_Some (self : Agent) (c : R)
  (value old_value returns : tensor) :
  value_clip_range self = Some c ->
  get_value_loss self value old_value returns
  = value_clipping_min c value old_value returns.
Proof.
  intros Hc. unfold get_value_loss, value_clipping_min. rewrite Hc.
  now rewrite value_min_fusion.
Qed.

(** *** The total loss *)

Lemma total_loss_finite (self : Agent) (p v e : R) :
  total_loss self (mkLossDict (Some p) (Some v) (Some e))
  = Some (p + value_coef self * v + entropy_coef self * e).
Proof. reflexivity. Qed.

(** C5: the loss that [update_step] hands to the optimizer is, as a
    function of the parameters, policy_loss + value_coef * value_loss +
    entropy_coef * entropy_loss, and the entropy loss is the negative mean
    of the entropy. *)
Theorem update_step_total_loss (self : Agent) (batch : Batch) :
  (forall entropy : tensor,
      get_entropy_loss self entropy = fneg (mean entropy))
  /\ entropy_loss (batch_losses self batch)
     = fneg (mean (snd (evaluate_actions (actor_net self) (b_state batch)
                          (b_action batch))))
  /\ (forall p v e : R,
        total_loss self (mkLossDict (Some p) (Some v) (Some e))
        = Some (p + value_coef self * v + entropy_coef self * e))
  /\ update_step self batch
     = (batch_losses self batch,
        let '(actor', value', optimizer') :=
          backward_step
            (fun actor value =>
               let d := batch_losses (set_nets self actor value) batch in
               fadd (fadd (policy_loss d)
                       (fscale (value_coef self) (value_loss d)))
                    (fscale (entropy_coef self) (entropy_loss d)))
            (1 / 2) (actor_net self) (value_net self) (optimizer self) in
        mkAgent value' actor' optimizer' (tau self) (gamma self)
          (clip_range self) (value_coef self) (value_clip_range self)
          (entropy_coef self) (update_epochs self) (mini_batch_size self)
          (train_step self + 1)).
Proof.
  split; [reflexivity|]. split.
  - unfold batch_losses, get_new_log_prob_entropy_value.
    destruct (evaluate_actions _ _ _); reflexivity.
  - split.
    + reflexivity.
    + unfold update_step, total_loss.
      destruct (backward_step _ _ _ _ _) as [[a v] o]. reflexivity.
Qed.

(** A larger mean entropy gives a smaller entropy loss. *)
Lemma get_entropy_loss_antitone (self : Agent) (e1 e2 : tensor) (m1 m2 : R) :
  mean e1 = Some m1 -> mean e2 = Some m2 -> m1 <= m2 ->
  exists l1 l2,
    get_entropy_loss self e1 = Some l1
    /\ get_entropy_loss self e2 = Some l2 /\ l2 <= l1.
Proof.
  intros H1 H2 Hle. unfold get_entropy_loss. rewrite H1, H2.
  exists (- m1), (- m2). cbn. repeat split. lra.
Qed.

(** *** Advantage normalization *)






Lemma sum_repeat (a : R) (n : nat) : sum (repeat a n) = INR n * a.
Proof.
  induction n as [|n IH]; [simpl; lra|].
  cbn [repeat sum fold_right]. fold (sum (repeat a n)).
  rewrite IH, S_INR. lra.
Qed.

Lemma mean_repeat (a : R) (n : nat) : mean (repeat a (S n)) = Some a.
Proof.
  unfold mean. cbn [repeat]. f_equal.
  change (a :: repeat a n) with (repeat a (S n)).
  rewrite sum_repeat, repeat_length.
  field. apply not_0_INR. lia.
Qed.

Lemma sum_zeros (t : tensor) : Forall (fun x => x = 0) t -> sum t = 0.
Proof.
  induction 1 as [|x t Hx _ IH]; [reflexivity|].
  cbn [sum fold_right]. fold (sum t). rewrite Hx, IH. lra.
Qed.

(** Two or more equal advantages: the standard deviation is 0, the
    divisor is [eps], and every normalized advantage is 0. *)
Lemma normalize_advantage_constant (a : R) (n : nat) :
  (2 <= n)%nat ->
  std (repeat a n) = Some 0
  /\ normalize_advantage (repeat a n) = Some (repeat 0 n).
Proof.
  intros Hn. destruct n as [|n]; [lia|].
  assert (Hstd : std (repeat a (S n)) = Some 0).
  { unfold std. rewrite mean_repeat, repeat_length.
    destruct (Nat.leb_spec (S n) 1); [lia|].
    f_equal. rewrite sum_zeros.
    - unfold Rdiv. rewrite Rmult_0_l. apply sqrt_0.
    - apply Forall_map, Forall_forall. intros x Hx.
      apply repeat_spec in Hx. subst x. ring. }
  split; [exact Hstd|].
  unfold normalize_advantage. rewrite mean_repeat, Hstd. f_equal.
  rewrite map_repeat. f_equal. unfold Rdiv. ring.
Qed.

(** A minibatch of one transition: [std] has no degrees of freedom left
    and is NaN, and so are the normalized advantage and the policy loss. *)
Lemma normalize_advantage_single (self : Agent) (batch : Batch) (a : R) :
  std [a] = nan
  /\ normalize_advantage [a] = None
  /\ (b_advantage batch = [a] ->
      policy_loss (batch_losses self batch) = nan).
Proof.
  split; [reflexivity|]. split; [reflexivity|].
  intros Ha. unfold batch_losses. rewrite Ha.
  destruct (get_new_log_prob_entropy_value _ _ _) as [[lp en] v].
  reflexivity.
Qed.

(** *** Orthogonal initialization *)

Lemma apply_Other (fn : nnModule -> TorchRng -> nnModule * TorchRng)
  (cs : list nnModule) (g : TorchRng) :
  apply fn (Other cs) g
  = let (cs', g') := apply_all fn cs g in fn (Other cs') g'.
Proof. reflexivity. Qed.

Lemma apply_init_weights_ortho (gain : R) :
  forall (m : nnModule) (g : TorchRng),
    ortho gain m (fst (apply (init_weights gain) m g)).
Proof.
  fix IH 1. intros [w b|w b|cs] g.
  - cbn [apply init_weights].
    pose proof (ortho_Linear gain w b g) as Ho.
    destruct (orthogonal_ w gain g) as [w' g']. exact Ho.
  - cbn [apply init_weights].
    pose proof (ortho_Conv2d gain w b g) as Ho.
    destruct (orthogonal_ w gain g) as [w' g']. exact Ho.
  - rewrite apply_Other.
    assert (Hall : forall g0,
               Forall2 (ortho gain) cs
                 (fst (apply_all (init_weights gain) cs g0))).
    { induction cs as [|c cs IHcs]; intros g0; cbn [apply_all].
      - constructor.
      - pose proof (IH c g0) as Hc.
        destruct (apply (init_weights gain) c g0) as [c' g1].
        pose proof (IHcs g1) as Hcs.
        destruct (apply_all (init_weights gain) cs g1) as [cs' g2].
        constructor; assumption. }
    specialize (Hall g).
    destruct (apply_all (init_weights gain) cs g) as [cs' g'].
    cbn [init_weights fst]. constructor. exact Hall.
Qed.

Lemma ortho_bias_zero (gain : R) :
  forall m m' : nnModule, ortho gain m m' -> bias_zero m'.
Proof.
  fix IH 3. intros m m' [w b g|w b g|cs cs' Hcs].
  - constructor. intros t Ht. destruct b as [b|]; [|discriminate].
    injection Ht as <-. apply Forall_map, Forall_forall. reflexivity.
  - constructor. intros t Ht. destruct b as [b|]; [|discriminate].
    injection Ht as <-. apply Forall_map, Forall_forall. reflexivity.
  - constructor. induction Hcs as [|c c' cs cs' Hc _ IHcs].
    + constructor.
    + constructor; [exact (IH c c' Hc)|exact IHcs].
Qed.

Lemma ortho_all_bias_zero (gain : R) (cs cs' : list nnModule) :
  Forall2 (ortho gain) cs cs' -> Forall bias_zero cs'.
Proof.
  induction 1 as [|c c' cs cs' Hc _ IH]; constructor; auto.
  now apply ortho_bias_zero with gain c.
Qed.

(** A slice visited by [apply (init_weights gain)] comes back as a
    container of the initialized layers. *)
Lemma apply_slice (gain : R) (cs : list nnModule) (g : TorchRng) :
  Forall2 (ortho gain) cs
    (children (fst (apply (init_weights gain) (Other cs) g))).
Proof.
  pose proof (apply_init_weights_ortho gain (Other cs) g) as Ho.
  remember (fst (apply (init_weights gain) (Other cs) g)) as m' eqn:Em.
  clear Em. inversion Ho as [| |cs0 cs' Hcs Heq1 Heq2]. exact Hcs.
Qed.

Lemma split_at_app {A : Type} (n : nat) (l c1 c2 : list A) :
  length c1 = length (firstn n l) ->
  length c2 = length (skipn n l) ->
  firstn n (c1 ++ c2) = c1 /\ skipn n (c1 ++ c2) = c2.
Proof.
  rewrite length_firstn, length_skipn. intros H1 H2.
  destruct (Nat.le_gt_cases (length l) n) as [Hle|Hgt].
  - assert (length c2 = 0%nat) by lia.
    destruct c2; [|discriminate]. rewrite app_nil_r.
    split; [apply firstn_all2|apply skipn_all2]; lia.
  - assert (Hn : length c1 = n) by lia.
    clear H1 H2 Hgt. subst n.
    rewrite firstn_app, skipn_app, Nat.sub_diag, firstn_all, skipn_all.
    cbn [firstn skipn app]. now rewrite app_nil_r.
Qed.

Lemma ortho_init_initialized (self : Agent) (g : TorchRng) :
  ortho_initialized (actor_net self) (value_net self)
    (fst (ortho_init self g)).
Proof.
  unfold ortho_init.
  pose proof (apply_slice (sqrt 2) (firstn 4 (fcs (actor_net self))) g) as A1.
  destruct (apply (init_weights (sqrt 2)) (Other (firstn 4 _)) g)
    as [ah g1]. cbn [fst] in A1.
  pose proof (apply_slice (sqrt 2) (firstn 4 (fcs (value_net self))) g1)
    as V1.
  destruct (apply (init_weights (sqrt 2)) (Other (firstn 4 _)) g1)
    as [vh g2]. cbn [fst] in V1.
  pose proof (apply_slice (1 / 100) (skipn 4 (fcs (actor_net self))) g2)
    as A2.
  destruct (apply (init_weights (1 / 100)) (Other (skipn 4 _)) g2)
    as [at_ g3]. cbn [fst] in A2.
  pose proof (apply_slice 1 (skipn 4 (fcs (value_net self))) g3) as V2.
  destruct (apply (init_weights 1) (Other (skipn 4 _)) g3)
    as [vt g4]. cbn [fst] in V2.
  cbn [fst]. unfold ortho_initialized, set_nets. cbn [actor_net value_net fcs rest].
  destruct (split_at_app 4 (fcs (actor_net self)) (children ah)
              (children at_)) as [Ea1 Ea2];
    [symmetry; eapply Forall2_length; eauto
    |symmetry; eapply Forall2_length; eauto|].
  destruct (split_at_app 4 (fcs (value_net self)) (children vh)
              (children vt)) as [Ev1 Ev2];
    [symmetry; eapply Forall2_length; eauto
    |symmetry; eapply Forall2_length; eauto|].
  rewrite Ea1, Ea2, Ev1, Ev2.
  repeat split; auto.
  - apply Forall_app; split; eapply ortho_all_bias_zero; eauto.
  - apply Forall_app; split; eapply ortho_all_bias_zero; eauto.
Qed.

(** C7: [ortho_init], and with it the construction of the agent,
    orthogonally initializes the layers of both [fcs] stacks: gain sqrt 2
    on the first four entries, 0.01 on the actor's others, 1 on the value
    network's others, every bias zero. *)
Theorem ortho_init_gains (self : Agent) (g : TorchRng) :
  ortho_initialized (actor_net self) (value_net self)
    (fst (ortho_init self g))
  /\ forall (value_net0 actor_net0 : Net) (lr gamma0 tau0 : R) (nstep : nat)
       (clip_range0 : R) (value_clip_range0 : option R)
       (value_coef0 entropy_coef0 : R)
       (update_epochs0 mini_batch_size0 : nat),
      ortho_initialized actor_net0 value_net0
        (fst (PPOAgent_init value_net0 actor_net0 lr gamma0 tau0 nstep
                clip_range0 value_clip_range0 value_coef0 entropy_coef0
                update_epochs0 mini_batch_size0 g)).
Proof.
  split; [apply ortho_init_initialized|].
  intros. unfold PPOAgent_init.
  apply (ortho_init_initialized (mkAgent _ _ _ _ _ _ _ _ _ _ _ _)).
Qed.

(** *** The starts of the minibatches *)

Lemma ceil_div_0 (m : nat) : ceil_div 0 m = 0%nat.
Proof.
  unfold ceil_div. destruct m as [|m]; [reflexivity|].
  apply Nat.div_small. lia.
Qed.

Lemma ceil_div_step (n m : nat) :
  (0 < n)%nat -> (0 < m)%nat -> ceil_div n m = S (ceil_div (n - m) m).
Proof.
  intros Hn Hm. unfold ceil_div.
  destruct (Nat.le_gt_cases m n) as [Hle|Hgt].
  - replace (n + m - 1)%nat with ((n - m + m - 1) + 1 * m)%nat by lia.
    rewrite Nat.div_add by lia. lia.
  - replace (n - m)%nat with 0%nat by lia.
    replace (n + m - 1)%nat with ((n - 1) + 1 * m)%nat by lia.
    rewrite Nat.div_add by lia.
    rewrite (Nat.div_small (n - 1) m) by lia.
    rewrite (Nat.div_small (0 + m - 1) m) by lia. reflexivity.
Qed.

(** With enough fuel [range_from] lists [start], [start + step], ... below
    [stop]: ceil ((stop - start) / step) numbers. *)
Lemma range_from_spec (step : nat) :
  (0 < step)%nat ->
  forall fuel start stop : nat,
    (stop <= start + fuel)%nat ->
    range_from fuel start stop step
    = map (fun k => (start + k * step)%nat)
        (seq 0 (ceil_div (stop - start) step)).
Proof.
  intros Hstep. induction fuel as [|fuel IH]; intros start stop Hf.
  - replace (stop - start)%nat with 0%nat by lia.
    now rewrite ceil_div_0.
  - cbn [range_from]. destruct (Nat.ltb_spec start stop) as [Hlt|Hge].
    + rewrite IH by lia.
      rewrite (ceil_div_step (stop - start) step) by lia.
      cbn [seq map]. f_equal; [lia|].
      rewrite <- seq_shift, map_map.
      replace (stop - start - step)%nat with (stop - (start + step))%nat
        by lia.
      apply map_ext. intros k. lia.
    + replace (stop - start)%nat with 0%nat by lia.
      now rewrite ceil_div_0.
Qed.

Lemma range0_length (stop step : nat) :
  (0 < step)%nat ->
  exists starts,
    range0 stop step = Some starts /\ length starts = ceil_div stop step.
Proof.
  intros Hstep. unfold range0.
  destruct (Nat.eqb_spec step 0) as [->|_]; [lia|].
  eexists; split; [reflexivity|].
  rewrite (range_from_spec step Hstep) by lia.
  now rewrite length_map, length_seq, Nat.sub_0_r.
Qed.

Lemma range_from_nonempty (fuel start stop step : nat) :
  range_from fuel start stop step <> [] -> (start < stop)%nat.
Proof.
  destruct fuel as [|fuel]; cbn [range_from]; [congruence|].
  destruct (Nat.ltb_spec start stop); [auto|congruence].
Qed.

(** The slices at the starts from [start] on cover the index array from
    [start] on, each of them full but the last. *)
Lemma minibatches_from (m : nat) (indices : list nat) :
  (0 < m)%nat ->
  forall fuel start : nat,
    (length indices <= start + fuel)%nat ->
    partitions m (skipn start indices)
      (map (fun s => slice indices s (s + m))
         (range_from fuel start (length indices) m)).
Proof.
  intros Hm. unfold partitions.
  induction fuel as [|fuel IH]; intros start Hf.
  - cbn [range_from map concat removelast].
    rewrite skipn_all2 by lia. repeat split; constructor.
  - cbn [range_from].
    destruct (Nat.ltb_spec start (length indices)) as [Hlt|Hge].
    + destruct (IH (start + m)%nat ltac:(lia)) as (Hc & Hok & Hfull).
      set (rest := map (fun s => slice indices s (s + m))
                     (range_from fuel (start + m) (length indices) m)) in *.
      assert (Hs : slice indices start (start + m)
                   = firstn m (skipn start indices)).
      { unfold slice. f_equal. lia. }
      cbn [map concat]. fold rest. rewrite Hs. split; [|split].
      * rewrite Hc.
        replace (skipn (start + m) indices)
          with (skipn m (skipn start indices))
          by (rewrite skipn_skipn; f_equal; lia).
        apply firstn_skipn.
      * constructor; [|exact Hok].
        unfold minibatch_ok. rewrite length_firstn, length_skipn. lia.
      * destruct rest as [|c rest'] eqn:Hrest; [constructor|].
        change (removelast (firstn m (skipn start indices) :: c :: rest'))
          with (firstn m (skipn start indices) :: removelast (c :: rest')).
        constructor; [|exact Hfull].
        assert (Hne : range_from fuel (start + m) (length indices) m <> []).
        { intros Hnil. unfold rest in Hrest. rewrite Hnil in Hrest.
          discriminate. }
        apply range_from_nonempty in Hne.
        rewrite length_firstn, length_skipn. lia.
    + cbn [map concat removelast]. rewrite skipn_all2 by lia.
      repeat split; constructor.
Qed.

Lemma minibatches_partition (m n : nat) (indices : list nat) :
  (0 < m)%nat -> length indices = n ->
  partitions m indices (minibatches m n indices)
  /\ length (minibatches m n indices) = ceil_div n m.
Proof.
  intros Hm Hn. unfold minibatches. subst n. split.
  - apply (minibatches_from m indices Hm (length indices) 0). lia.
  - rewrite length_map, (range_from_spec m Hm) by lia.
    now rewrite length_map, length_seq, Nat.sub_0_r.
Qed.

(** *** One step *)

Lemma update_step_fields (self : Agent) (batch : Batch) :
  train_step (snd (update_step self batch)) = (train_step self + 1)%nat
  /\ update_epochs (snd (update_step self batch)) = update_epochs self
  /\ mini_batch_size (snd (update_step self batch)) = mini_batch_size self.
Proof.
  unfold update_step.
  destruct (backward_step _ _ _ _ _) as [[a v] o]. now cbn.
Qed.

Lemma update_step_dict (self : Agent) (batch : Batch) :
  fst (update_step self batch) = batch_losses self batch.
Proof.
  unfold update_step.
  destruct (backward_step _ _ _ _ _) as [[a v] o]. reflexivity.
Qed.

(** *** Index arrays *)

Lemma take_Some {A : Type} (xs : list A) (idx : list nat) :
  Forall (fun i => (i < length xs)%nat) idx ->
  exists r, take xs idx = Some r /\ length r = length idx.
Proof.
  induction 1 as [|i idx Hi _ [r [IH Hl]]]; cbn [take].
  - now exists [].
  - apply nth_error_Some in Hi.
    destruct (nth_error xs i) as [x|]; [|congruence].
    rewrite IH. exists (x :: r). cbn [length]. now rewrite Hl.
Qed.

Lemma gather_Some (ds : Dataset) (n : nat) (idx : list nat) :
  dataset_rows ds n ->
  Forall (fun i => (i < n)%nat) idx ->
  exists batch, gather ds idx = Some batch.
Proof.
  intros (H1 & H2 & H3 & H4 & H5 & H6) Hidx. unfold gather.
  destruct (take_Some (states ds) idx) as [s [-> _]];
    [now rewrite H1|].
  destruct (take_Some (actions ds) idx) as [a [-> _]];
    [now rewrite H2|].
  destruct (take_Some (old_log_probs ds) idx) as [l [-> _]];
    [now rewrite H3|].
  destruct (take_Some (old_values ds) idx) as [v [-> _]];
    [now rewrite H4|].
  destruct (take_Some (advantages ds) idx) as [ad [-> _]];
    [now rewrite H5|].
  destruct (take_Some (returns ds) idx) as [r [-> _]];
    [now rewrite H6|].
  eexists; reflexivity.
Qed.

(** *** Sequences of steps *)

Lemma steps_Some (ds : Dataset) (n : nat) (idxs : list (list nat)) :
  dataset_rows ds n ->
  Forall (Forall (fun i => (i < n)%nat)) idxs ->
  forall self, exists dicts self', steps ds self idxs = Some (dicts, self').
Proof.
  intros Hds. induction 1 as [|idx idxs Hidx _ IH]; intros self.
  - now exists [], self.
  - cbn [steps]. destruct (gather_Some ds n idx Hds Hidx) as [batch ->].
    destruct (update_step self batch) as [d self1].
    destruct (IH self1) as (dicts & self' & ->).
    now exists (d :: dicts), self'.
Qed.

Lemma steps_fields (ds : Dataset) (idxs : list (list nat)) :
  forall self dicts self',
    steps ds self idxs = Some (dicts, self') ->
    train_step self' = (train_step self + length idxs)%nat
    /\ update_epochs self' = update_epochs self
    /\ mini_batch_size self' = mini_batch_size self
    /\ length dicts = length idxs.
Proof.
  induction idxs as [|idx idxs IH]; intros self dicts self'; cbn [steps].
  - intros [= <- <-]. cbn. repeat split; lia.
  - destruct (gather ds idx) as [batch|]; [|discriminate].
    destruct (update_step_fields self batch) as (Ht & He & Hm).
    destruct (update_step self batch) as [d self1]. cbn [snd] in *.
    destruct (steps ds self1 idxs) as [[dicts1 self2]|] eqn:Hs;
      [|discriminate].
    intros [= <- <-]. destruct (IH _ _ _ Hs) as (Ht' & He' & Hm' & Hl).
    cbn [length]. repeat split; try congruence; lia.
Qed.

Lemma steps_app (ds : Dataset) (a b : list (list nat)) :
  forall self d1 self1 d2 self2,
    steps ds self a = Some (d1, self1) ->
    steps ds self1 b = Some (d2, self2) ->
    steps ds self (a ++ b) = Some (d1 ++ d2, self2).
Proof.
  induction a as [|idx a IH]; intros self d1 self1 d2 self2; cbn [steps app].
  - now intros [= <- <-].
  - destruct (gather ds idx) as [batch|]; [|discriminate].
    destruct (update_step self batch) as [d self0].
    destruct (steps ds self0 a) as [[da sa]|] eqn:Ha; [|discriminate].
    intros [= <- <-] Hb. now rewrite (IH _ _ _ _ _ Ha Hb).
Qed.

Lemma run_epochs_concat (ds : Dataset) (sched : list (list (list nat))) :
  forall self dictss self',
    run_epochs ds self sched = Some (dictss, self') ->
    steps ds self (concat sched) = Some (concat dictss, self')
    /\ length dictss = length sched.
Proof.
  induction sched as [|epoch sched IH]; intros self dictss self';
    cbn [run_epochs concat].
  - intros [= <- <-]. now split.
  - destruct (steps ds self epoch) as [[dicts self1]|] eqn:He;
      [|discriminate].
    destruct (run_epochs ds self1 sched) as [[dd self2]|] eqn:Hr;
      [|discriminate].
    intros [= <- <-]. destruct (IH _ _ _ Hr) as [Hs Hl]. split.
    + cbn [concat]. now apply steps_app with self1.
    + cbn [length]. now rewrite Hl.
Qed.

Lemma run_epochs_Some (ds : Dataset) (n : nat)
  (sched : list (list (list nat))) :
  dataset_rows ds n ->
  Forall (Forall (Forall (fun i => (i < n)%nat))) sched ->
  forall self,
    exists dictss self', run_epochs ds self sched = Some (dictss, self').
Proof.
  intros Hds. induction 1 as [|epoch sched Hep _ IH]; intros self.
  - now exists [], self.
  - cbn [run_epochs].
    destruct (steps_Some ds n epoch Hds Hep self) as (dicts & self1 & ->).
    destruct (IH self1) as (dd & self2 & ->).
    now exists (dicts :: dd), self2.
Qed.

(** *** The two loops *)

Lemma logged_nil (E e : nat) : logged E e [] = [].
Proof. unfold logged. now destruct (_ =? _)%Z. Qed.

Lemma logged_cons_map {B : Type} (f : LossDict -> B) (E e : nat)
  (l : list B) (d : LossDict) (dicts : list LossDict) :
  (if (Z.of_nat e =? Z.of_nat E - 1)%Z then l ++ [f d] else l)
    ++ map f (logged E e dicts)
  = l ++ map f (logged E e (d :: dicts)).
Proof.
  unfold logged. destruct (_ =? _)%Z; cbn [map].
  - now rewrite <- app_assoc.
  - reflexivity.
Qed.

(** The loop over [start] is [steps] on the slices at the starts; it
    appends the dictionaries to the lists in the last epoch only and leaves
    generator, buffer, dataset and index array as they are. *)
Lemma minibatch_loop (e : nat) (starts : list nat) :
  forall (st : Loop) (dicts : list LossDict) (self' : Agent),
    steps (l_dataset st) (l_self st)
      (map (fun s =>
              slice (l_indices st) s (s + mini_batch_size (l_self st)))
         starts)
    = Some (dicts, self') ->
    foldM (minibatch_body e) starts st
    = Some (mkLoop self' (l_rng st) (l_buffer st) (l_dataset st)
              (l_indices st)
              (l_policy_losses st
               ++ map policy_loss (logged (update_epochs (l_self st)) e dicts))
              (l_value_losses st
               ++ map value_loss (logged (update_epochs (l_self st)) e dicts))
              (l_entropy_losses st
               ++ map entropy_loss
                    (logged (update_epochs (l_self st)) e dicts))).
Proof.
  induction starts as [|start starts IH]; intros st dicts self';
    cbn [map steps foldM].
  - intros [= <- <-]. rewrite logged_nil. cbn [map].
    rewrite !app_nil_r. now destruct st.
  - unfold minibatch_body at 1.
    destruct (gather (l_dataset st) _) as [batch|]; [|discriminate].
    destruct (update_step_fields (l_self st) batch) as (_ & He & Hm).
    destruct (update_step (l_self st) batch) as [d self1]. cbn [snd] in *.
    destruct (steps (l_dataset st) self1 _) as [[dicts1 self2]|] eqn:Hs;
      [|discriminate].
    intros [= <- <-]. rewrite He.
    rewrite <- (logged_cons_map policy_loss), <- (logged_cons_map value_loss),
      <- (logged_cons_map entropy_loss).
    destruct (Z.of_nat e =? Z.of_nat (update_epochs (l_self st)) - 1)%Z;
      (erewrite IH; cbn [l_self l_rng l_buffer l_dataset l_indices
                          l_policy_losses l_value_losses l_entropy_losses];
       [rewrite He; reflexivity|rewrite Hm; exact Hs]).
Qed.

Lemma epoch_body_spec (n e : nat) (st : Loop) (dicts : list LossDict)
  (self' : Agent) :
  (0 < mini_batch_size (l_self st))%nat ->
  steps (l_dataset st) (l_self st)
    (minibatches (mini_batch_size (l_self st)) n
       (fst (shuffle (l_indices st) (l_rng st))))
  = Some (dicts, self') ->
  epoch_body n st e
  = Some (mkLoop self' (snd (shuffle (l_indices st) (l_rng st)))
            (l_buffer st) (l_dataset st)
            (fst (shuffle (l_indices st) (l_rng st)))
            (l_policy_losses st
             ++ map policy_loss (logged (update_epochs (l_self st)) e dicts))
            (l_value_losses st
             ++ map value_loss (logged (update_epochs (l_self st)) e dicts))
            (l_entropy_losses st
             ++ map entropy_loss
                  (logged (update_epochs (l_self st)) e dicts))).
Proof.
  intros Hm Hs. unfold epoch_body.
  destruct (shuffle (l_indices st) (l_rng st)) as [indices' rng'].
  cbn [fst snd l_self] in *. unfold range0.
  destruct (Nat.eqb_spec (mini_batch_size (l_self st)) 0) as [H0|_]; [lia|].
  now rewrite (minibatch_loop e _ _ dicts self').
Qed.

Lemma last_cons {A : Type} (a d : A) (l : list A) :
  last (a :: l) d = last l a.
Proof.
  revert a d; induction l as [|b l IH]; intros a d; [reflexivity|].
  change (last (a :: b :: l) d) with (last (b :: l) d).
  now rewrite (IH b d), (IH b a).
Qed.

(** The loop over [e], from epoch [k] on, is [run_epochs] on the
    minibatches of the successive shuffles. *)
Lemma epochs_loop (n : nat) :
  forall (j k : nat) (st : Loop) (dictss : list (list LossDict))
         (self' : Agent),
    (0 < mini_batch_size (l_self st))%nat ->
    run_epochs (l_dataset st) (l_self st)
      (map (minibatches (mini_batch_size (l_self st)) n)
         (epoch_orders j (l_indices st) (l_rng st)))
    = Some (dictss, self') ->
    foldM (epoch_body n) (seq k j) st
    = Some (mkLoop self' (rng_after j (l_indices st) (l_rng st))
              (l_buffer st) (l_dataset st)
              (last (epoch_orders j (l_indices st) (l_rng st))
                 (l_indices st))
              (l_policy_losses st
               ++ map policy_loss
                    (logged_from (update_epochs (l_self st)) k dictss))
              (l_value_losses st
               ++ map value_loss
                    (logged_from (update_epochs (l_self st)) k dictss))
              (l_entropy_losses st
               ++ map entropy_loss
                    (logged_from (update_epochs (l_self st)) k dictss))).
Proof.
  induction j as [|j IH]; intros k st dictss self' Hm;
    cbn [epoch_orders rng_after seq foldM map run_epochs].
  - intros [= <- <-]. cbn [logged_from map last].
    rewrite !app_nil_r. now destruct st.
  - pose proof (epoch_body_spec n k st) as Hbody.
    destruct (shuffle (l_indices st) (l_rng st)) as [indices1 rng1].
    cbn [fst snd map run_epochs] in *.
    destruct (steps (l_dataset st) (l_self st) _) as [[dicts self1]|] eqn:Hs;
      [|discriminate].
    destruct (run_epochs (l_dataset st) self1 _) as [[dd self2]|] eqn:Hr;
      [|discriminate].
    intros [= <- <-]. rewrite (Hbody dicts self1 Hm eq_refl).
    destruct (steps_fields _ _ _ _ _ Hs) as (_ & He & Hm1 & _).
    erewrite IH;
      cbn [l_self l_rng l_buffer l_dataset l_indices
            l_policy_losses l_value_losses l_entropy_losses].
    + rewrite last_cons, He. cbn [logged_from].
      now rewrite !map_app, !app_assoc.
    + lia.
    + rewrite Hm1. exact Hr.
Qed.

Lemma logged_from_last (E : nat) (dictss : list (list LossDict)) :
  forall k : nat,
    (k + length dictss)%nat = E ->
    logged_from E k dictss = last dictss [].
Proof.
  induction dictss as [|dicts dictss IH]; intros k Hk; [reflexivity|].
  cbn [logged_from length] in *. unfold logged.
  destruct dictss as [|dicts' dictss].
  - cbn [length logged_from last] in *.
    destruct (Z.eqb_spec (Z.of_nat k) (Z.of_nat E - 1)); [|lia].
    now rewrite app_nil_r.
  - destruct (Z.eqb_spec (Z.of_nat k) (Z.of_nat E - 1));
      [cbn [length] in Hk; lia|].
    cbn [app]. rewrite IH by (cbn [length] in *; lia). reflexivity.
Qed.

Lemma last_nth {A : Type} (l : list A) (d : A) :
  last l d = nth (length l - 1) l d.
Proof.
  induction l as [|a l IH]; [reflexivity|].
  destruct l as [|b l]; [reflexivity|].
  change (last (a :: b :: l) d) with (last (b :: l) d). rewrite IH.
  cbn [length]. rewrite !Nat.sub_1_r. reflexivity.
Qed.

(** *** The schedule *)

(** What numpy promises of [np.random.shuffle]: the array is permuted. *)
Hypothesis shuffle_perm :
  forall (l : list nat) (g : NpRng), Permutation l (fst (shuffle l g)).

Lemma epoch_orders_length (E : nat) :
  forall (indices : list nat) (rng : NpRng),
    length (epoch_orders E indices rng) = E.
Proof.
  induction E as [|E IH]; intros indices rng; cbn [epoch_orders];
    [reflexivity|].
  destruct (shuffle indices rng) as [i' g']. cbn [length]. now rewrite IH.
Qed.

Lemma epoch_orders_perm (n E : nat) :
  forall (indices : list nat) (rng : NpRng),
    Permutation indices (seq 0 n) ->
    Forall (fun order => Permutation order (seq 0 n))
      (epoch_orders E indices rng).
Proof.
  induction E as [|E IH]; intros indices rng Hp; cbn [epoch_orders];
    [constructor|].
  pose proof (shuffle_perm indices rng) as Hs.
  destruct (shuffle indices rng) as [i' g']. cbn [fst] in Hs.
  assert (Hp' : Permutation i' (seq 0 n))
    by (eapply Permutation_trans; [apply Permutation_sym; exact Hs|exact Hp]).
  constructor; [exact Hp'|now apply IH].
Qed.

Lemma perm_seq_range (n : nat) (order : list nat) :
  Permutation order (seq 0 n) ->
  Forall (fun i => (i < n)%nat) order /\ length order = n.
Proof.
  intros Hp. split.
  - apply Forall_forall. intros i Hi.
    apply (Permutation_in _ Hp), in_seq in Hi. lia.
  - rewrite (Permutation_length Hp). apply length_seq.
Qed.

Lemma minibatches_ok (m n : nat) (order : list nat) :
  (0 < m)%nat -> Permutation order (seq 0 n) ->
  epoch_ok m n order (minibatches m n order).
Proof.
  intros Hm Hp. destruct (perm_seq_range n order Hp) as [_ Hl].
  destruct (minibatches_partition m n order Hm Hl) as [Hpart Hlen].
  repeat split; try apply Hpart; auto.
  destruct Hpart as [-> _]. exact Hp.
Qed.

Lemma Forall2_map_r {A B : Type} (P : A -> B -> Prop) (f : A -> B)
  (l : list A) :
  Forall (fun x => P x (f x)) l -> Forall2 P l (map f l).
Proof. induction 1; cbn [map]; constructor; auto. Qed.

Lemma schedule_ok (E m n : nat) (rng : NpRng) :
  (0 < m)%nat ->
  Forall2 (epoch_ok m n) (epoch_orders E (seq 0 n) rng) (schedule E m n rng).
Proof.
  intros Hm. unfold schedule. apply Forall2_map_r.
  eapply Forall_impl; [|apply epoch_orders_perm; apply Permutation_refl].
  intros order Hp. now apply minibatches_ok.
Qed.

Lemma schedule_length (E m n : nat) (rng : NpRng) :
  length (schedule E m n rng) = E.
Proof. unfold schedule. now rewrite length_map, epoch_orders_length. Qed.

Lemma schedule_in_range (E m n : nat) (rng : NpRng) :
  (0 < m)%nat ->
  Forall (Forall (Forall (fun i => (i < n)%nat))) (schedule E m n rng).
Proof.
  intros Hm. pose proof (schedule_ok E m n rng Hm) as Hok.
  induction Hok as [|order epoch orders sched Hep _ IH]; constructor; auto.
  destruct Hep as (_ & _ & Hp & _).
  apply Forall_concat. now apply perm_seq_range.
Qed.

Lemma schedule_count (E m n : nat) (rng : NpRng) :
  (0 < m)%nat ->
  length (concat (schedule E m n rng)) = (E * ceil_div n m)%nat.
Proof.
  intros Hm. pose proof (schedule_ok E m n rng Hm) as Hok.
  rewrite <- (schedule_length E m n rng) at 2.
  induction Hok as [|order epoch orders sched Hep _ IH]; [reflexivity|].
  cbn [concat length]. rewrite length_app, IH.
  destruct Hep as (_ & _ & _ & ->). lia.
Qed.

(** *** The update as a whole *)

(** [update] runs: its two loops are [run_epochs] on the schedule, and
    what is appended to the three lists comes from the last epoch. *)
Lemma update_loops_spec (self : Agent) (buffer : Buffer) (rng : NpRng) :
  dataset_rows (fst (make_dataset buffer)) (buffer_size buffer) ->
  (0 < mini_batch_size self)%nat ->
  exists (dictss : list (list LossDict)) (self' : Agent),
    run_epochs (fst (make_dataset buffer)) self
      (update_schedule self buffer rng) = Some (dictss, self')
    /\ length dictss = update_epochs self
    /\ update_loops self buffer rng
       = Some (mkLoop self'
                 (rng_after (update_epochs self) (seq 0 (buffer_size buffer))
                    rng)
                 (snd (make_dataset buffer)) (fst (make_dataset buffer))
                 (last (epoch_orders (update_epochs self)
                          (seq 0 (buffer_size buffer)) rng)
                    (seq 0 (buffer_size buffer)))
                 (map policy_loss (last dictss []))
                 (map value_loss (last dictss []))
                 (map entropy_loss (last dictss []))).
Proof.
  intros Hds Hm.
  destruct (run_epochs_Some _ _ (update_schedule self buffer rng) Hds
              (schedule_in_range _ _ _ rng Hm) self)
    as (dictss & self' & Hrun).
  exists dictss, self'.
  assert (Hlen : length dictss = update_epochs self).
  { destruct (run_epochs_concat _ _ _ _ _ Hrun) as [_ ->].
    apply schedule_length. }
  repeat split; auto.
  unfold update_loops. fold (buffer_size buffer).
  destruct (make_dataset buffer) as [ds buffer'] eqn:Hmk. cbn [fst snd] in *.
  rewrite (epochs_loop (buffer_size buffer) (update_epochs self) 0
             (mkLoop self rng buffer' ds (seq 0 (buffer_size buffer))
                [] [] [])
             dictss self' Hm Hrun).
  cbn [l_self l_rng l_buffer l_dataset l_indices app
        l_policy_losses l_value_losses l_entropy_losses].
  now rewrite (logged_from_last (update_epochs self) dictss 0 Hlen).
Qed.

(** C2: [update] makes [update_epochs] passes; every pass shuffles the
    index array, a permutation of 0 .. buffer_size - 1, and cuts it into
    consecutive minibatches of [mini_batch_size], the last possibly
    smaller, with one [update_step] per minibatch: every index once per
    epoch, and [update_epochs * ceil (buffer_size / mini_batch_size)] steps
    in all. *)
Theorem update_minibatches (self : Agent) (buffer : Buffer) (rng : NpRng) :
  dataset_rows (fst (make_dataset buffer)) (buffer_size buffer) ->
  (0 < mini_batch_size self)%nat ->
  length (update_schedule self buffer rng) = update_epochs self
  /\ Forall2 (epoch_ok (mini_batch_size self) (buffer_size buffer))
       (epoch_orders (update_epochs self) (seq 0 (buffer_size buffer)) rng)
       (update_schedule self buffer rng)
  /\ length (concat (update_schedule self buffer rng))
     = (update_epochs self
        * ceil_div (buffer_size buffer) (mini_batch_size self))%nat
  /\ exists (dicts : list LossDict) (self' : Agent) (stats : LossDict)
       (rng' : NpRng) (buffer' : Buffer),
      steps (fst (make_dataset buffer)) self
        (concat (update_schedule self buffer rng)) = Some (dicts, self')
      /\ length dicts
         = (update_epochs self
            * ceil_div (buffer_size buffer) (mini_batch_size self))%nat
      /\ update self buffer rng = Some (stats, self', rng', buffer').
Proof.
  intros Hds Hm. unfold update_schedule.
  split; [apply schedule_length|].
  split; [now apply schedule_ok|].
  split; [now apply schedule_count|].
  destruct (update_loops_spec self buffer rng Hds Hm)
    as (dictss & self' & Hrun & _ & Hloops).
  destruct (run_epochs_concat _ _ _ _ _ Hrun) as [Hsteps _].
  exists (concat dictss), self'. unfold update. rewrite Hloops.
  do 3 eexists. split; [exact Hsteps|]. split; [|reflexivity].
  destruct (steps_fields _ _ _ _ _ Hsteps) as (_ & _ & _ & ->).
  now apply schedule_count.
Qed.

(** C9: the statistics that [update] returns are the means of the
    policy, value and entropy losses of the steps of the last epoch, the
    one with index [update_epochs - 1]. *)
Theorem update_statistics (self : Agent) (buffer : Buffer) (rng : NpRng) :
  dataset_rows (fst (make_dataset buffer)) (buffer_size buffer) ->
  (0 < mini_batch_size self)%nat ->
  exists (dictss : list (list LossDict)) (self' : Agent) (rng' : NpRng)
    (buffer' : Buffer),
    run_epochs (fst (make_dataset buffer)) self
      (update_schedule self buffer rng) = Some (dictss, self')
    /\ length dictss = update_epochs self
    /\ update self buffer rng
       = Some (statistics (nth (update_epochs self - 1) dictss []),
               self', rng', buffer').
Proof.
  intros Hds Hm.
  destruct (update_loops_spec self buffer rng Hds Hm)
    as (dictss & self' & Hrun & Hlen & Hloops).
  exists dictss, self'. do 2 eexists.
  split; [exact Hrun|]. split; [exact Hlen|].
  unfold update. rewrite Hloops.
  cbn [l_self l_rng l_buffer l_policy_losses l_value_losses
        l_entropy_losses].
  unfold statistics. now rewrite <- Hlen, <- last_nth.
Qed.

(** *** The step counter *)

Lemma minibatch_loop_count (e : nat) (starts : list nat) :
  forall st st' : Loop,
    foldM (minibatch_body e) starts st = Some st' ->
    train_step (l_self st') = (train_step (l_self st) + length starts)%nat
    /\ update_epochs (l_self st') = update_epochs (l_self st)
    /\ mini_batch_size (l_self st') = mini_batch_size (l_self st).
Proof.
  induction starts as [|start starts IH]; intros st st'; cbn [foldM].
  - intros [= <-]. cbn [length]. repeat split; lia.
  - destruct (minibatch_body e st start) as [st1|] eqn:Hb; [|discriminate].
    intros Hf. destruct (IH _ _ Hf) as (Ht & He & Hm).
    assert (H1 : train_step (l_self st1) = (train_step (l_self st) + 1)%nat
                 /\ update_epochs (l_self st1) = update_epochs (l_self st)
                 /\ mini_batch_size (l_self st1)
                    = mini_batch_size (l_self st)).
    { unfold minibatch_body in Hb.
      destruct (gather _ _) as [batch|]; [|discriminate].
      pose proof (update_step_fields (l_self st) batch) as Hfields.
      destruct (update_step (l_self st) batch) as [d self1].
      cbn [snd] in Hfields.
      destruct (_ =? _)%Z; injection Hb as <-; exact Hfields. }
    destruct H1 as (Ht1 & He1 & Hm1). cbn [length].
    repeat split; try congruence; lia.
Qed.

Lemma epochs_loop_count (n : nat) (epochs : list nat) :
  forall st st' : Loop,
    foldM (epoch_body n) epochs st = Some st' ->
    train_step (l_self st')
    = (train_step (l_self st)
       + length epochs * ceil_div n (mini_batch_size (l_self st)))%nat
    /\ update_epochs (l_self st') = update_epochs (l_self st)
    /\ mini_batch_size (l_self st') = mini_batch_size (l_self st).
Proof.
  induction epochs as [|e epochs IH]; intros st st'; cbn [foldM].
  - intros [= <-]. cbn [length]. repeat split; lia.
  - destruct (epoch_body n st e) as [st1|] eqn:Hb; [|discriminate].
    intros Hf. destruct (IH _ _ Hf) as (Ht & He & Hm).
    unfold epoch_body in Hb.
    destruct (shuffle (l_indices st) (l_rng st)) as [indices' rng'].
    cbn [l_self] in Hb. unfold range0 in Hb.
    destruct (Nat.eqb_spec (mini_batch_size (l_self st)) 0) as [|Hne];
      [discriminate|].
    apply minibatch_loop_count in Hb. cbn [l_self] in Hb.
    destruct Hb as (Ht1 & He1 & Hm1).
    rewrite (range_from_spec (mini_batch_size (l_self st)) ltac:(lia))
      in Ht1 by lia.
    rewrite length_map, length_seq, Nat.sub_0_r in Ht1.
    cbn [length]. rewrite Hm1 in Ht. repeat split; try congruence; lia.
Qed.

(** Whenever [update] returns, it has made
    [update_epochs * ceil (buffer_size / mini_batch_size)] steps. *)
Lemma update_count (self : Agent) (buffer : Buffer) (rng : NpRng)
  (stats : LossDict) (self' : Agent) (rng' : NpRng) (buffer' : Buffer) :
  update self buffer rng = Some (stats, self', rng', buffer') ->
  train_step self'
  = (train_step self
     + update_epochs self
       * ceil_div (buffer_size buffer) (mini_batch_size self))%nat.
Proof.
  unfold update, update_loops. fold (buffer_size buffer).
  destruct (make_dataset buffer) as [ds b'].
  destruct (foldM _ _ _) as [st|] eqn:Hf; [|discriminate].
  intros [= _ <- _ _]. apply epochs_loop_count in Hf.
  cbn [l_self] in Hf. rewrite length_seq in Hf. apply Hf.
Qed.

Lemma ortho_init_train_step (self : Agent) (g : TorchRng) :
  train_step (fst (ortho_init self g)) = train_step self.
Proof.
  unfold ortho_init.
  repeat match goal with
         | |- context [let (_, _) := ?x in _] => destruct x
         end.
  reflexivity.
Qed.

Lemma call_train_step (m : Method) (w w' : World) :
  call m w = Some w' ->
  train_step (w_agent w') = (train_step (w_agent w) + steps_of m w)%nat.
Proof.
  destruct m; cbn [call steps_of];
    try (intros [= <-]; cbn [w_agent]; lia).
  - pose proof (ortho_init_train_step (w_agent w) (w_torch w)) as Ho.
    destruct (ortho_init (w_agent w) (w_torch w)) as [self' g'].
    intros [= <-]. cbn [w_agent fst] in *. lia.
  - destruct (get_action _ _ _ _). intros [= <-]. cbn [w_agent]. lia.
  - destruct (act _ _ _ _). intros [= <-]. cbn [w_agent]. lia.
  - destruct (update_step_fields (w_agent w) batch) as [Ht _].
    destruct (update_step (w_agent w) batch) as [d self'].
    intros [= <-]. exact Ht.
  - destruct (update (w_agent w) buffer (w_numpy w))
      as [[[[stats self'] rng'] buffer']|] eqn:Hu; [|discriminate].
    intros [= <-]. exact (update_count _ _ _ _ _ _ _ Hu).
  - unfold load.
    destruct (read_file _ _); [|discriminate].
    destruct (read_file _ _); [|discriminate].
    intros [= <-]. cbn [w_agent set_nets train_step]. lia.
Qed.

Lemma run_train_step (ms : list Method) :
  forall w w' : World,
    run ms w = Some w' ->
    (train_step (w_agent w) <= train_step (w_agent w'))%nat.
Proof.
  unfold run. induction ms as [|m ms IH]; intros w w'; cbn [foldM].
  - intros [= <-]. lia.
  - destruct (call m w) as [w1|] eqn:Hc; [|discriminate].
    intros Hr. apply IH in Hr. apply call_train_step in Hc. lia.
Qed.

(** C10: [update_step] adds exactly 1 to [train_step], no other method
    changes it, so that it never decreases; a new agent starts at 0, and
    one [update] adds
    [update_epochs * ceil (buffer_size / mini_batch_size)]. *)
Theorem train_step_counts (self : Agent) (buffer : Buffer) (rng : NpRng) :
  dataset_rows (fst (make_dataset buffer)) (buffer_size buffer) ->
  (0 < mini_batch_size self)%nat ->
  (forall (a : Agent) (batch : Batch),
      train_step (snd (update_step a batch)) = (train_step a + 1)%nat)
  /\ (forall (m : Method) (w w' : World),
        call m w = Some w' ->
        train_step (w_agent w')
        = (train_step (w_agent w) + steps_of m w)%nat)
  /\ (forall (ms : list Method) (w w' : World),
        run ms w = Some w' ->
        (train_step (w_agent w) <= train_step (w_agent w'))%nat)
  /\ (exists (stats : LossDict) (self' : Agent) (rng' : NpRng)
        (buffer' : Buffer),
        update self buffer rng = Some (stats, self', rng', buffer')
        /\ train_step self'
           = (train_step self
              + update_epochs self
                * ceil_div (buffer_size buffer) (mini_batch_size self))%nat)
  /\ forall (value_net0 actor_net0 : Net) (lr gamma0 tau0 : R) (nstep : nat)
       (clip_range0 : R) (value_clip_range0 : option R)
       (value_coef0 entropy_coef0 : R)
       (update_epochs0 mini_batch_size0 : nat) (g : TorchRng),
      train_step
        (fst (PPOAgent_init value_net0 actor_net0 lr gamma0 tau0 nstep
                clip_range0 value_clip_range0 value_coef0 entropy_coef0
                update_epochs0 mini_batch_size0 g)) = 0%nat.
Proof.
  intros Hds Hm.
  split; [intros a batch; apply update_step_fields|].
  split; [exact call_train_step|].
  split; [intros ms; apply run_train_step|].
  split.
  - destruct (update_loops_spec self buffer rng Hds Hm)
      as (dictss & self' & _ & _ & Hloops).
    assert (Hu : exists stats rng' buffer',
               update self buffer rng = Some (stats, self', rng', buffer')).
    { unfold update. rewrite Hloops. do 3 eexists. reflexivity. }
    destruct Hu as (stats & rng' & buffer' & Hu).
    exists stats, self', rng', buffer'. split; [exact Hu|].
    exact (update_count _ _ _ _ _ _ _ Hu).
  - intros. unfold PPOAgent_init. now rewrite ortho_init_train_step.
Qed.

(** *** What the update leaves alone *)

Lemma gather_fields (ds : Dataset) (idx : list nat) (batch : Batch) :
  gather ds idx = Some batch ->
  take (old_log_probs ds) idx = Some (b_old_log_prob batch)
  /\ take (old_values ds) idx = Some (b_old_value batch)
  /\ take (advantages ds) idx = Some (b_advantage batch)
  /\ take (returns ds) idx = Some (b_returns batch).
Proof.
  unfold gather.
  destruct (take (states ds) idx); [|discriminate].
  destruct (take (actions ds) idx); [|discriminate].
  destruct (take (old_log_probs ds) idx); [|discriminate].
  destruct (take (old_values ds) idx); [|discriminate].
  destruct (take (advantages ds) idx); [|discriminate].
  destruct (take (returns ds) idx); [|discriminate].
  intros [= <-]. now cbn.
Qed.

Lemma batch_losses_reads (a : Agent) (batch : Batch) :
  value_loss (batch_losses a batch)
  = get_value_loss a (value_forward (value_net a) (b_state batch))
      (b_old_value batch) (b_returns batch)
  /\ policy_loss (batch_losses a batch)
     = match normalize_advantage (b_advantage batch) with
       | Some advantage =>
           get_clipped_surrogate_loss a
             (fst (evaluate_actions (actor_net a) (b_state batch)
                     (b_action batch)))
             (b_old_log_prob batch) advantage
       | None => nan
       end.
Proof.
  unfold batch_losses, get_new_log_prob_entropy_value.
  destruct (evaluate_actions _ _ _) as [lp en]. now cbn.
Qed.

(** C8: through the two loops of [update] the buffer stays as
    [make_dataset] left it and the dataset as [make_dataset] returned it;
    every step works on the rows of that dataset at its minibatch, the
    value loss takes the returns as they are, and the policy loss takes
    the advantages through the normalization of the minibatch only. *)
Theorem update_frame (self : Agent) (buffer : Buffer) (rng : NpRng) :
  dataset_rows (fst (make_dataset buffer)) (buffer_size buffer) ->
  (0 < mini_batch_size self)%nat ->
  (exists (st : Loop) (dicts : list LossDict) (stats : LossDict),
      update_loops self buffer rng = Some st
      /\ l_buffer st = snd (make_dataset buffer)
      /\ l_dataset st = fst (make_dataset buffer)
      /\ steps (fst (make_dataset buffer)) self
           (concat (update_schedule self buffer rng))
         = Some (dicts, l_self st)
      /\ update self buffer rng
         = Some (stats, l_self st, l_rng st, snd (make_dataset buffer)))
  /\ (forall (ds : Dataset) (idx : list nat) (batch : Batch),
        gather ds idx = Some batch ->
        take (old_log_probs ds) idx = Some (b_old_log_prob batch)
        /\ take (old_values ds) idx = Some (b_old_value batch)
        /\ take (advantages ds) idx = Some (b_advantage batch)
        /\ take (returns ds) idx = Some (b_returns batch))
  /\ forall (a : Agent) (batch : Batch),
      fst (update_step a batch) = batch_losses a batch
      /\ value_loss (batch_losses a batch)
         = get_value_loss a (value_forward (value_net a) (b_state batch))
             (b_old_value batch) (b_returns batch)
      /\ policy_loss (batch_losses a batch)
         = match normalize_advantage (b_advantage batch) with
           | Some advantage =>
               get_clipped_surrogate_loss a
                 (fst (evaluate_actions (actor_net a) (b_state batch)
                         (b_action batch)))
                 (b_old_log_prob batch) advantage
           | None => nan
           end.
Proof.
  intros Hds Hm. split; [|split].
  - destruct (update_loops_spec self buffer rng Hds Hm)
      as (dictss & self' & Hrun & _ & Hloops).
    destruct (run_epochs_concat _ _ _ _ _ Hrun) as [Hsteps _].
    eexists. exists (concat dictss). eexists.
    split; [exact Hloops|]. cbn [l_buffer l_dataset l_self l_rng].
    repeat split; auto.
    unfold update. rewrite Hloops. reflexivity.
  - exact gather_fields.
  - intros a batch. split; [apply update_step_dict|].
    apply batch_losses_reads.
Qed.

End Properties.

(** ** The code at concrete inputs *)

Lemma toy_shuffle_perm :
  forall (l : list nat) (g : NpRng),
    Permutation l (fst (@shuffle toy_substrate toy_library l g)).
Proof. intros l g. apply Permutation_rev. Qed.

Lemma toy_rows :
  dataset_rows (fst (make_dataset toy_buffer)) (buffer_size toy_buffer).
Proof. repeat split. Qed.

(** C4: with a clip range the code takes the smaller, not the larger, of
    the two squared errors.  Value 2, old value 0, returns 0, clip range
    1: the clipped value is 1, the squared errors are 4 and 1; the code
    returns 1 where PPO value clipping gives 4. *)
Theorem get_value_loss_takes_min :
  get_value_loss (toy_agent (Some 1) 2) [2] [0] [0] = Some 1
  /\ value_clipping_min 1 [2] [0] [0] = Some 1
  /\ value_clipping_spec 1 [2] [0] [0] = Some 4.
Proof.
  assert (Hmin : value_clipping_min 1 [2] [0] [0] = Some 1).
  { unfold value_clipping_min.
    cbn [map3 mean sum fold_right length INR].
    f_equal. unfold clamp, Rmin, Rmax.
    repeat (destruct (Rle_dec _ _)); lra. }
  split; [|split].
  - now rewrite (get_value_loss_Some _ 1).
  - exact Hmin.
  - unfold value_clipping_spec.
    cbn [map3 mean sum fold_right length INR].
    f_equal. unfold clamp, Rmin, Rmax.
    repeat (destruct (Rle_dec _ _)); lra.
Qed.

(** C6: three rows in minibatches of two leave a minibatch of one row;
    its standard deviation is NaN, and so are its normalized advantage,
    the policy loss of its step and the policy loss that [update]
    returns. *)
Theorem update_one_row_minibatch :
  update_schedule (toy_agent None 2) toy_buffer 0%nat
  = [[[2; 1]; [0]]; [[0; 1]; [2]]]%nat
  /\ std [3] = nan
  /\ normalize_advantage [3] = None
  /\ exists (stats : LossDict) (self' : Agent) (rng' : NpRng)
       (buffer' : Buffer),
      update (toy_agent None 2) toy_buffer 0%nat
      = Some (stats, self', rng', buffer')
      /\ policy_loss stats = nan.
Proof.
  split; [reflexivity|]. split; [reflexivity|]. split; [reflexivity|].
  do 4 eexists. split.
  - unfold update, update_loops.
    cbn -[exp Rplus Rmult Rminus Rdiv Rmin Rmax INR sqrt pow std mean Rinv
          Ropp normalize_advantage get_clipped_surrogate_loss np_mean].
    reflexivity.
  - cbn [policy_loss]. change (normalize_advantage [3]) with (@None tensor).
    unfold np_mean. cbn [all_finite].
    now destruct (match normalize_advantage [1; 2] with
                  | Some _ => _
                  | None => _
                  end).
Qed.

(** ** The theorems at the small instance *)

Lemma get_clipped_surrogate_loss_spec_witness :
  length [0; 0] = length [1; -1]
  /\ length [0; 0] = length [1; -1]
  /\ get_clipped_surrogate_loss (toy_agent None 2) [0; 0] [0; 0] [1; -1]
     = clipped_surrogate_spec (clip_range (toy_agent None 2))
         [0; 0] [0; 0] [1; -1].
Proof.
  split; [reflexivity|]. split; [reflexivity|].
  apply get_clipped_surrogate_loss_spec; reflexivity.
Defined.

Lemma get_value_loss_mse_witness :
  value_clip_range (toy_agent None 2) = None
  /\ length [2; 3] = length [0; 1]
  /\ length [0; 0] = length [0; 1]
  /\ get_value_loss (toy_agent None 2) [2; 3] [0; 0] [0; 1]
     = mse_spec [2; 3] [0; 1]
  /\ forall old_value' : tensor,
      get_value_loss (toy_agent None 2) [2; 3] old_value' [0; 1]
      = get_value_loss (toy_agent None 2) [2; 3] [0; 0] [0; 1].
Proof.
  split; [reflexivity|]. split; [reflexivity|]. split; [reflexivity|].
  apply get_value_loss_mse; reflexivity.
Defined.

Lemma update_minibatches_witness :
  (forall (l : list nat) (g : NpRng),
      Permutation l (fst (@shuffle toy_substrate toy_library l g)))
  /\ dataset_rows (fst (make_dataset toy_buffer)) (buffer_size toy_buffer)
  /\ (0 < mini_batch_size (toy_agent None 2))%nat
  /\ length (update_schedule (toy_agent None 2) toy_buffer 0%nat)
     = update_epochs (toy_agent None 2)
  /\ Forall2
       (epoch_ok (mini_batch_size (toy_agent None 2))
          (buffer_size toy_buffer))
       (epoch_orders (update_epochs (toy_agent None 2))
          (seq 0 (buffer_size toy_buffer)) 0%nat)
       (update_schedule (toy_agent None 2) toy_buffer 0%nat)
  /\ length (concat (update_schedule (toy_agent None 2) toy_buffer 0%nat))
     = (update_epochs (toy_agent None 2)
        * ceil_div (buffer_size toy_buffer)
            (mini_batch_size (toy_agent None 2)))%nat
  /\ exists (dicts : list LossDict) (self' : Agent) (stats : LossDict)
       (rng' : NpRng) (buffer' : Buffer),
      steps (fst (make_dataset toy_buffer)) (toy_agent None 2)
        (concat (update_schedule (toy_agent None 2) toy_buffer 0%nat))
      = Some (dicts, self')
      /\ length dicts
         = (update_epochs (toy_agent None 2)
            * ceil_div (buffer_size toy_buffer)
                (mini_batch_size (toy_agent None 2)))%nat
      /\ update (toy_agent None 2) toy_buffer 0%nat
         = Some (stats, self', rng', buffer').
Proof.
  split; [exact toy_shuffle_perm|].
  split; [exact toy_rows|].
  split; [cbn; lia|].
  apply (update_minibatches toy_shuffle_perm (toy_agent None 2) toy_buffer
           0%nat toy_rows).
  cbn; lia.
Defined.

Lemma update_statistics_witness :
  (forall (l : list nat) (g : NpRng),
      Permutation l (fst (@shuffle toy_substrate toy_library l g)))
  /\ dataset_rows (fst (make_dataset toy_buffer)) (buffer_size toy_buffer)
  /\ (0 < mini_batch_size (toy_agent None 2))%nat
  /\ exists (dictss : list (list LossDict)) (self' : Agent) (rng' : NpRng)
       (buffer' : Buffer),
      run_epochs (fst (make_dataset toy_buffer)) (toy_agent None 2)
        (update_schedule (toy_agent None 2) toy_buffer 0%nat)
      = Some (dictss, self')
      /\ length dictss = update_epochs (toy_agent None 2)
      /\ update (toy_agent None 2) toy_buffer 0%nat
         = Some (statistics
                   (nth (update_epochs (toy_agent None 2) - 1) dictss []),
                 self', rng', buffer').
Proof.
  split; [exact toy_shuffle_perm|].
  split; [exact toy_rows|].
  split; [cbn; lia|].
  apply (update_statistics toy_shuffle_perm (toy_agent None 2) toy_buffer
           0%nat toy_rows).
  cbn; lia.
Defined.

Lemma train_step_counts_witness :
  (forall (l : list nat) (g : NpRng),
      Permutation l (fst (@shuffle toy_substrate toy_library l g)))
  /\ dataset_rows (fst (make_dataset toy_buffer)) (buffer_size toy_buffer)
  /\ (0 < mini_batch_size (toy_agent None 2))%nat
  /\ exists (stats : LossDict) (self' : Agent) (rng' : NpRng)
       (buffer' : Buffer),
      update (toy_agent None 2) toy_buffer 0%nat
      = Some (stats, self', rng', buffer')
      /\ train_step self'
         = (train_step (toy_agent None 2)
            + update_epochs (toy_agent None 2)
              * ceil_div (buffer_size toy_buffer)
                  (mini_batch_size (toy_agent None 2)))%nat.
Proof.
  split; [exact toy_shuffle_perm|].
  split; [exact toy_rows|].
  split; [cbn; lia|].
  apply (train_step_counts toy_shuffle_perm (toy_agent None 2) toy_buffer
           0%nat toy_rows).
  cbn; lia.
Defined.

Lemma update_frame_witness :
  (forall (l : list nat) (g : NpRng),
      Permutation l (fst (@shuffle toy_substrate toy_library l g)))
  /\ dataset_rows (fst (make_dataset toy_buffer)) (buffer_size toy_buffer)
  /\ (0 < mini_batch_size (toy_agent None 2))%nat
  /\ exists (st : Loop) (dicts : list LossDict) (stats : LossDict),
      update_loops (toy_agent None 2) toy_buffer 0%nat = Some st
      /\ l_buffer st = snd (make_dataset toy_buffer)
      /\ l_dataset st = fst (make_dataset toy_buffer)
      /\ steps (fst (make_dataset toy_buffer)) (toy_agent None 2)
           (concat (update_schedule (toy_agent None 2) toy_buffer 0%nat))
         = Some (dicts, l_self st)
      /\ update (toy_agent None 2) toy_buffer 0%nat
         = Some (stats, l_self st, l_rng st, snd (make_dataset toy_buffer)).
Proof.
  split; [exact toy_shuffle_perm|].
  split; [exact toy_rows|].
  split; [cbn; lia|].
  apply (update_frame toy_shuffle_perm (toy_agent None 2) toy_buffer
           0%nat toy_rows).
  cbn; lia.
Defined.

(** ** Further properties *)

Section Further.

Context `{L : Library}.

(** *** Checkpoints *)









(** *** Sums and means *)

Lemma sum_cons (x : R) (t : tensor) : sum (x :: t) = x + sum t.
Proof. reflexivity. Qed.

Lemma sum_le (a b : tensor) : Forall2 Rle a b -> sum a <= sum b.
Proof.
  induction 1 as [|x y a b Hxy _ IH]; [apply Rle_refl|].
  rewrite !sum_cons. lra.
Qed.

Lemma sum_nonneg (t : tensor) : Forall (Rle 0) t -> 0 <= sum t.
Proof.
  induction 1 as [|x t Hx _ IH]; [apply Rle_refl|].
  rewrite sum_cons. lra.
Qed.

Lemma mean_nonempty (t : tensor) :
  t <> [] -> mean t = Some (sum t / INR (length t)).
Proof. destruct t; [congruence|reflexivity]. Qed.

Lemma INR_length_pos (t : tensor) : t <> [] -> 0 < INR (length t).
Proof.
  intros Ht. apply lt_0_INR. destruct t; [congruence|cbn; lia].
Qed.

Lemma mean_le (a b : tensor) :
  a <> [] -> Forall2 Rle a b ->
  exists ma mb, mean a = Some ma /\ mean b = Some mb /\ ma <= mb.
Proof.
  intros Ha Hab.
  assert (Hb : b <> []) by (destruct Hab; congruence).
  rewrite (mean_nonempty a Ha), (mean_nonempty b Hb).
  do 2 eexists. split; [reflexivity|]. split; [reflexivity|].
  rewrite <- (Forall2_length Hab).
  pose proof (INR_length_pos a Ha) as Hn. pose proof (sum_le a b Hab).
  unfold Rdiv. apply Rmult_le_compat_r; [|assumption].
  apply Rlt_le, Rinv_0_lt_compat, Hn.
Qed.

Lemma mean_nonneg (t : tensor) :
  t <> [] -> Forall (Rle 0) t -> exists m, mean t = Some m /\ 0 <= m.
Proof.
  intros Ht Hpos. rewrite (mean_nonempty t Ht). eexists.
  split; [reflexivity|].
  pose proof (INR_length_pos t Ht). pose proof (sum_nonneg t Hpos).
  unfold Rdiv. apply Rmult_le_pos; [assumption|].
  now apply Rlt_le, Rinv_0_lt_compat.
Qed.

Lemma map3_pointwise (P : R -> R -> Prop) (f g : R -> R -> R -> R) :
  (forall x y z, P (f x y z) (g x y z)) ->
  forall a b c : tensor, Forall2 P (map3 f a b c) (map3 g a b c).
Proof.
  intros Hfg. induction a as [|x a IH]; intros [|y b] [|z c];
    cbn [map3]; constructor; auto.
Qed.

Lemma map3_Forall (P : R -> Prop) (f : R -> R -> R -> R) :
  (forall x y z, P (f x y z)) ->
  forall a b c : tensor, Forall P (map3 f a b c).
Proof.
  intros Hf. induction a as [|x a IH]; intros [|y b] [|z c];
    cbn [map3]; constructor; auto.
Qed.

Lemma map3_nonempty (f : R -> R -> R -> R) (a b c : tensor) :
  c <> [] -> length a = length c -> length b = length c ->
  map3 f a b c <> [].
Proof.
  destruct a, b, c; cbn [map3 length]; congruence.
Qed.

Lemma map3_ignore_middle (g : R -> R -> R) :
  forall a b c : tensor,
    length b = length a ->
    map3 (fun x _ z => g x z) a b c = map2 g a c.
Proof.
  induction a as [|x a IH]; intros [|y b] [|z c] Hl; cbn [map3 map2];
    try reflexivity; try discriminate.
  f_equal. apply IH. now injection Hl.
Qed.

(** *** Further properties of the losses *)

Lemma clamp_inside (x lo hi : R) : lo <= x <= hi -> clamp x lo hi = x.
Proof.
  intros [H1 H2]. unfold clamp, Rmin, Rmax.
  repeat destruct (Rle_dec _ _); lra.
Qed.

(** X3: where the new log-probabilities equal the old ones, as in the
    first step after a rollout, the clipping is idle and the policy loss
    is the negative mean advantage. *)
Theorem surrogate_on_policy (self : Agent) (log_prob advantage : tensor) :
  0 <= clip_range self ->
  length log_prob = length advantage ->
  get_clipped_surrogate_loss self log_prob log_prob advantage
  = fneg (mean advantage).
Proof.
  intros Hc Hl. unfold get_clipped_surrogate_loss.
  rewrite surrogate_fusion. do 2 f_equal.
  revert advantage Hl.
  induction log_prob as [|lp log_prob IH]; intros [|A adv] Hl;
    cbn [map3]; try discriminate; [reflexivity|].
  rewrite IH by (now injection Hl). f_equal.
  cbv zeta. rewrite Rminus_diag, exp_0, clamp_inside by lra.
  rewrite Rmult_1_l. apply Rmin_same.
Qed.


(** X5: the value loss is a number between 0 and the mean squared
    error, with or without a clip range. *)
Theorem value_loss_bounds (self : Agent) (value old_value returns : tensor) :
  returns <> [] ->
  length value = length returns ->
  length old_value = length returns ->
  exists v mse : R,
    get_value_loss self value old_value returns = Some v
    /\ mse_spec value returns = Some mse
    /\ 0 <= v <= mse.
Proof.
  intros Hne Hl1 Hl2.
  assert (Hmse : mse_spec value returns
                 = mean (map3 (fun v _ r => (v - r) ^ 2)
                           value old_value returns)).
  { unfold mse_spec. now rewrite map3_ignore_middle by congruence. }
  destruct (value_clip_range self) as [c|] eqn:Hc.
  - rewrite (get_value_loss_Some self c) by assumption.
    unfold value_clipping_min. rewrite Hmse.
    destruct (mean_le
                (map3 (fun v o r =>
                         Rmin ((v - r) ^ 2)
                           ((clamp v (o - c) (o + c) - r) ^ 2))
                   value old_value returns)
                (map3 (fun v _ r => (v - r) ^ 2) value old_value returns))
      as (ma & mb & Ha & Hb & Hle).
    + now apply map3_nonempty.
    + apply map3_pointwise. intros x y z. apply Rmin_l.
    + destruct (mean_nonneg
                  (map3 (fun v o r =>
                           Rmin ((v - r) ^ 2)
                             ((clamp v (o - c) (o + c) - r) ^ 2))
                     value old_value returns))
        as (m & Hm & Hpos).
      * now apply map3_nonempty.
      * apply map3_Forall. intros x y z.
        apply Rmin_glb; apply pow2_ge_0.
      * exists ma, mb. rewrite Ha, Hb. repeat split; auto. congruence.
  - rewrite (get_value_loss_None self) by assumption. rewrite Hmse.
    destruct (mean_nonneg
                (map3 (fun v _ r => (v - r) ^ 2) value old_value returns))
      as (m & Hm & Hpos).
    + now apply map3_nonempty.
    + apply map3_Forall. intros x y z. apply pow2_ge_0.
    + exists m, m. rewrite Hm. repeat split; auto. apply Rle_refl.
Qed.

(** X6: where every value is within the clip range of its old value the
    clipping is idle and the value loss is the mean squared error. *)
Theorem value_loss_clip_idle (self : Agent) (c : R)
  (value old_value returns : tensor) :
  value_clip_range self = Some c ->
  Forall2 (fun v o => o - c <= v <= o + c) value old_value ->
  length value = length returns ->
  get_value_loss self value old_value returns = mse_spec value returns.
Proof.
  intros Hc Hin Hl. rewrite (get_value_loss_Some self c) by assumption.
  unfold value_clipping_min, mse_spec. f_equal.
  revert returns Hl. induction Hin as [|v o value old Hvo _ IH];
    intros [|r returns] Hl; cbn [map3 map2]; try reflexivity;
    try discriminate.
  rewrite IH by (now injection Hl). f_equal.
  rewrite clamp_inside by assumption. apply Rmin_same.
Qed.

(** *** Further properties of the normalization *)


Lemma sum_map_centred (mu d : R) (t : tensor) :
  sum (map (fun a => (a - mu) / d) t)
  = (sum t - INR (length t) * mu) / d.
Proof.
  induction t as [|a t IH].
  - cbn. unfold Rdiv. ring.
  - cbn [map]. rewrite !sum_cons, IH.
    change (length (a :: t)) with (S (length t)). rewrite S_INR.
    unfold Rdiv. ring.
Qed.

Lemma mean_Some_inv (t : tensor) (mu : R) :
  mean t = Some mu -> t <> [] /\ mu = sum t / INR (length t).
Proof.
  destruct t as [|a t]; [discriminate|]. intros [= <-].
  split; [congruence|reflexivity].
Qed.

(** X8: a normalized advantage has as many entries as the advantage and
    mean 0. *)
Theorem normalize_advantage_mean (advantage normalized : tensor) :
  normalize_advantage advantage = Some normalized ->
  length normalized = length advantage /\ mean normalized = Some 0.
Proof.
  unfold normalize_advantage.
  destruct (mean advantage) as [mu|] eqn:Hmu; [|discriminate].
  destruct (std advantage) as [sd|]; [|discriminate].
  intros [= <-]. split; [apply length_map|].
  destruct (mean_Some_inv _ _ Hmu) as [Hne ->].
  rewrite mean_nonempty by (destruct advantage; [congruence|discriminate]).
  f_equal. rewrite sum_map_centred, length_map.
  pose proof (INR_length_pos advantage Hne) as Hn.
  replace (sum advantage
           - INR (length advantage)
             * (sum advantage / INR (length advantage)))
    with 0 by (field; lra).
  unfold Rdiv. ring.
Qed.

Lemma sum_map_shift (k : R) (t : tensor) :
  sum (map (fun a => a + k) t) = sum t + INR (length t) * k.
Proof.
  induction t as [|a t IH].
  - cbn. ring.
  - cbn [map]. rewrite !sum_cons, IH.
    change (length (a :: t)) with (S (length t)). rewrite S_INR. ring.
Qed.

Lemma mean_shift (k : R) (t : tensor) (mu : R) :
  mean t = Some mu -> mean (map (fun a => a + k) t) = Some (mu + k).
Proof.
  intros Hmu. destruct (mean_Some_inv _ _ Hmu) as [Hne ->].
  rewrite mean_nonempty by (destruct t; [congruence|discriminate]).
  f_equal. rewrite sum_map_shift, length_map.
  pose proof (INR_length_pos t Hne). field. lra.
Qed.

(** X9: adding one constant to every advantage of a minibatch does not
    change the normalized advantage. *)
Theorem normalize_advantage_shift (k : R) (advantage : tensor) :
  normalize_advantage (map (fun a => a + k) advantage)
  = normalize_advantage advantage.
Proof.
  unfold normalize_advantage, std.
  destruct (mean advantage) as [mu|] eqn:Hmu.
  - rewrite (mean_shift k advantage mu Hmu), length_map.
    destruct (length advantage <=? 1)%nat; [reflexivity|].
    rewrite !map_map.
    replace (map (fun x => (x + k - (mu + k)) ^ 2) advantage)
      with (map (fun x => (x - mu) ^ 2) advantage)
      by (apply map_ext; intros x; ring).
    f_equal. apply map_ext. intros x. unfold Rdiv. ring.
  - destruct advantage; [reflexivity|discriminate].
Qed.



(** *** Edge cases of the update *)

(** X11: with no epochs [update] makes no step and draws no shuffle: it
    returns NaN statistics (the mean of empty lists) and the agent and
    numpy's generator as they were, whatever the batch size. *)
Theorem update_no_epochs (self : Agent) (buffer : Buffer) (rng : NpRng) :
  update_epochs self = 0%nat ->
  update self buffer rng
  = Some (mkLossDict nan nan nan, self, rng, snd (make_dataset buffer)).
Proof.
  intros HE. unfold update, update_loops. rewrite HE.
  destruct (make_dataset buffer) as [ds buffer']. reflexivity.
Qed.

(** X12: with a minibatch size of 0 and at least one epoch [update]
    raises ([range] with step 0), before any step. *)
Theorem update_zero_batch_size (self : Agent) (buffer : Buffer)
  (rng : NpRng) :
  mini_batch_size self = 0%nat ->
  (0 < update_epochs self)%nat ->
  update self buffer rng = None.
Proof.
  intros Hm HE. unfold update, update_loops.
  destruct (make_dataset buffer) as [ds buffer'].
  destruct (update_epochs self) as [|E]; [lia|].
  cbn [seq foldM]. unfold epoch_body.
  destruct (shuffle _ _) as [indices' rng']. cbn [l_self].
  rewrite Hm. reflexivity.
Qed.

Lemma epochs_loop_empty (epochs : list nat) :
  forall st : Loop,
    (0 < mini_batch_size (l_self st))%nat ->
    exists (rng' : NpRng) (indices' : list nat),
      foldM (epoch_body 0) epochs st
      = Some (mkLoop (l_self st) rng' (l_buffer st) (l_dataset st) indices'
                (l_policy_losses st) (l_value_losses st)
                (l_entropy_losses st)).
Proof.
  induction epochs as [|e epochs IH]; intros st Hm; cbn [foldM].
  - exists (l_rng st), (l_indices st). now destruct st.
  - unfold epoch_body at 1.
    destruct (shuffle (l_indices st) (l_rng st)) as [indices1 rng1].
    cbn [l_self]. unfold range0.
    destruct (Nat.eqb_spec (mini_batch_size (l_self st)) 0); [lia|].
    cbn [range_from foldM].
    destruct (IH (mkLoop (l_self st) rng1 (l_buffer st) (l_dataset st)
                    indices1 (l_policy_losses st) (l_value_losses st)
                    (l_entropy_losses st)) Hm)
      as (rng' & indices' & Hf).
    exists rng', indices'. exact Hf.
Qed.

(** X13: on an empty buffer [update] makes no step: the agent is
    unchanged and the statistics are NaN. *)
Theorem update_empty_buffer (self : Agent) (buffer : Buffer) (rng : NpRng) :
  buffer_size buffer = 0%nat ->
  (0 < mini_batch_size self)%nat ->
  exists rng' : NpRng,
    update self buffer rng
    = Some (mkLossDict nan nan nan, self, rng', snd (make_dataset buffer)).
Proof.
  intros Hn Hm. unfold update, update_loops. fold (buffer_size buffer).
  rewrite Hn. destruct (make_dataset buffer) as [ds buffer'].
  destruct (epochs_loop_empty (seq 0 (update_epochs self))
              (mkLoop self rng buffer' ds (seq 0 0) [] [] []) Hm)
    as (rng' & indices' & ->).
  exists rng'. reflexivity.
Qed.

(** *** The hyperparameters *)

Lemma same_config_refl (a : Agent) : same_config a a.
Proof. unfold same_config. repeat split. Qed.

Lemma same_config_trans (a b c : Agent) :
  same_config a b -> same_config b c -> same_config a c.
Proof.
  unfold same_config.
  intros (H1 & H2 & H3 & H4 & H5 & H6 & H7 & H8)
         (G1 & G2 & G3 & G4 & G5 & G6 & G7 & G8).
  repeat split; congruence.
Qed.

Lemma set_nets_config (self : Agent) (actor value : Net) :
  same_config self (set_nets self actor value).
Proof. unfold same_config. repeat split. Qed.

Lemma update_step_config (self : Agent) (batch : Batch) :
  same_config self (snd (update_step self batch)).
Proof.
  unfold update_step.
  destruct (backward_step _ _ _ _ _) as [[a v] o].
  unfold same_config. repeat split.
Qed.

Lemma minibatch_loop_config (e : nat) (starts : list nat) :
  forall st st' : Loop,
    foldM (minibatch_body e) starts st = Some st' ->
    same_config (l_self st) (l_self st').
Proof.
  induction starts as [|start starts IH]; intros st st'; cbn [foldM].
  - intros [= <-]. apply same_config_refl.
  - destruct (minibatch_body e st start) as [st1|] eqn:Hb; [|discriminate].
    intros Hf. apply same_config_trans with (l_self st1); [|now apply IH].
    unfold minibatch_body in Hb.
    destruct (gather _ _) as [batch|]; [|discriminate].
    pose proof (update_step_config (l_self st) batch) as Hc.
    destruct (update_step (l_self st) batch) as [d self1].
    destruct (_ =? _)%Z; injection Hb as <-; exact Hc.
Qed.

Lemma epochs_loop_config (n : nat) (epochs : list nat) :
  forall st st' : Loop,
    foldM (epoch_body n) epochs st = Some st' ->
    same_config (l_self st) (l_self st').
Proof.
  induction epochs as [|e epochs IH]; intros st st'; cbn [foldM].
  - intros [= <-]. apply same_config_refl.
  - destruct (epoch_body n st e) as [st1|] eqn:Hb; [|discriminate].
    intros Hf. apply same_config_trans with (l_self st1); [|now apply IH].
    unfold epoch_body in Hb.
    destruct (shuffle _ _) as [indices' rng'].
    destruct (range0 _ _) as [starts|]; [|discriminate].
    apply minibatch_loop_config in Hb. exact Hb.
Qed.

Lemma update_config (self : Agent) (buffer : Buffer) (rng : NpRng)
  (stats : LossDict) (self' : Agent) (rng' : NpRng) (buffer' : Buffer) :
  update self buffer rng = Some (stats, self', rng', buffer') ->
  same_config self self'.
Proof.
  unfold update, update_loops.
  destruct (make_dataset buffer) as [ds b'].
  destruct (foldM _ _ _) as [st|] eqn:Hf; [|discriminate].
  intros [= _ <- _ _]. apply epochs_loop_config in Hf. exact Hf.
Qed.

Lemma ortho_init_config (self : Agent) (g : TorchRng) :
  same_config self (fst (ortho_init self g))
  /\ optimizer (fst (ortho_init self g)) = optimizer self.
Proof.
  unfold ortho_init.
  repeat match goal with
         | |- context [let (_, _) := ?x in _] => destruct x
         end.
  split; [apply set_nets_config|reflexivity].
Qed.

Lemma call_config (m : Method) (w w' : World) :
  call m w = Some w' -> same_config (w_agent w) (w_agent w').
Proof.
  destruct m; cbn [call];
    try (intros [= <-]; cbn [w_agent]; apply same_config_refl).
  - pose proof (ortho_init_config (w_agent w) (w_torch w)) as [Ho _].
    destruct (ortho_init (w_agent w) (w_torch w)) as [self' g'].
    intros [= <-]. exact Ho.
  - destruct (get_action _ _ _ _). intros [= <-]. apply same_config_refl.
  - destruct (act _ _ _ _). intros [= <-]. apply same_config_refl.
  - pose proof (update_step_config (w_agent w) batch) as Hc.
    destruct (update_step (w_agent w) batch) as [d self'].
    intros [= <-]. exact Hc.
  - destruct (update (w_agent w) buffer (w_numpy w))
      as [[[[stats self'] rng'] buffer']|] eqn:Hu; [|discriminate].
    intros [= <-]. exact (update_config _ _ _ _ _ _ _ Hu).
  - unfold load.
    destruct (read_file _ _); [|discriminate].
    destruct (read_file _ _); [|discriminate].
    intros [= <-]. apply set_nets_config.
Qed.

(** X14: no sequence of method calls changes a hyperparameter: tau,
    gamma, the clip ranges, the loss coefficients, the number of epochs
    and the minibatch size stay as [__init__] set them. *)
Theorem run_config (ms : list Method) (w w' : World) :
  run ms w = Some w' -> same_config (w_agent w) (w_agent w').
Proof.
  unfold run. revert w. induction ms as [|m ms IH]; intros w; cbn [foldM].
  - intros [= <-]. apply same_config_refl.
  - destruct (call m w) as [w1|] eqn:Hc; [|discriminate].
    intros Hr. apply same_config_trans with (w_agent w1);
      [now apply call_config with m|now apply IH].
Qed.


(** *** The shape of the networks *)

Lemma ortho_same_shape (gain : R) :
  forall m m' : nnModule, ortho gain m m' -> same_shape m m'.
Proof.
  fix IH 3. intros m m' [w b g|w b g|cs cs' Hcs].
  - constructor. destruct b; cbn; [now rewrite length_map|reflexivity].
  - constructor. destruct b; cbn; [now rewrite length_map|reflexivity].
  - constructor. induction Hcs as [|c c' cs cs' Hc _ IHcs].
    + constructor.
    + constructor; [exact (IH c c' Hc)|exact IHcs].
Qed.

Lemma ortho_all_same_shape (gain : R) (cs cs' : list nnModule) :
  Forall2 (ortho gain) cs cs' -> Forall2 same_shape cs cs'.
Proof.
  induction 1 as [|c c' cs cs' Hc _ IH]; constructor; auto.
  now apply ortho_same_shape with gain.
Qed.

Lemma Forall2_split_at {A B : Type} (P : A -> B -> Prop) (n : nat)
  (l : list A) (l' : list B) :
  Forall2 P (firstn n l) (firstn n l') ->
  Forall2 P (skipn n l) (skipn n l') ->
  Forall2 P l l'.
Proof.
  intros H1 H2. rewrite <- (firstn_skipn n l), <- (firstn_skipn n l').
  now apply Forall2_app.
Qed.

(** X16: [ortho_init] keeps the shape of both networks: the same modules
    in the same places, no layer and no bias added or dropped, every bias
    of its old length. *)
Theorem ortho_init_shape (self : Agent) (g : TorchRng) :
  Forall2 same_shape (fcs (actor_net self))
    (fcs (actor_net (fst (ortho_init self g))))
  /\ Forall2 same_shape (fcs (value_net self))
       (fcs (value_net (fst (ortho_init self g)))).
Proof.
  destruct (ortho_init_initialized self g)
    as (A1 & A2 & V1 & V2 & _).
  split; apply (Forall2_split_at same_shape 4);
    eapply ortho_all_same_shape; eauto.
Qed.

(** *** Full batches *)

Hypothesis shuffle_perm :
  forall (l : list nat) (g : NpRng), Permutation l (fst (shuffle l g)).

Lemma minibatches_full (m n : nat) (order : list nat) :
  (0 < n <= m)%nat -> length order = n ->
  minibatches m n order = [order].
Proof.
  intros Hn Hl. unfold minibatches.
  rewrite (range_from_spec m ltac:(lia)) by lia.
  rewrite Nat.sub_0_r, (ceil_div_step n m) by lia.
  replace (n - m)%nat with 0%nat by lia. rewrite ceil_div_0.
  cbn [seq map]. unfold slice. cbn [Nat.add Nat.mul skipn].
  rewrite Nat.sub_0_r, firstn_all2 by lia. reflexivity.
Qed.

(** X17: with a minibatch size of at least the buffer size every epoch
    is one step on the whole shuffled buffer. *)
Theorem update_full_batch (self : Agent) (buffer : Buffer) (rng : NpRng) :
  (0 < buffer_size buffer <= mini_batch_size self)%nat ->
  update_schedule self buffer rng
  = map (fun order => [order])
      (epoch_orders (update_epochs self) (seq 0 (buffer_size buffer)) rng).
Proof.
  intros Hn. unfold update_schedule, schedule. apply map_ext_in.
  intros order Hin.
  pose proof (epoch_orders_perm shuffle_perm (buffer_size buffer)
                (update_epochs self) (seq 0 (buffer_size buffer)) rng
                (Permutation_refl _)) as Hall.
  rewrite Forall_forall in Hall.
  destruct (perm_seq_range _ _ (Hall order Hin)) as [_ Hl].
  now apply minibatches_full.
Qed.

(** *** A minibatch of one transition *)

Lemma take_length {A : Type} (xs : list A) (idx : list nat) :
  forall r, take xs idx = Some r -> length r = length idx.
Proof.
  induction idx as [|i idx IH]; intros r; cbn [take].
  - now intros [= <-].
  - destruct (nth_error xs i); [|discriminate].
    destruct (take xs idx) as [r'|]; [|discriminate].
    intros [= <-]. cbn [length]. now rewrite (IH r').
Qed.

Lemma np_mean_nan (l : list flt) : In None l -> np_mean l = nan.
Proof.
  intros Hin. unfold np_mean.
  assert (Hall : all_finite l = None).
  { induction l as [|x l IH]; [destruct Hin|].
    cbn [all_finite]. destruct x as [x|]; [|reflexivity].
    destruct Hin as [|Hin]; [discriminate|]. now rewrite IH. }
  now rewrite Hall.
Qed.

Lemma last_map {A B : Type} (f : A -> B) (l : list A) (d : A) (d' : B) :
  l <> [] -> last (map f l) d' = f (last l d).
Proof.
  induction l as [|a l IH]; [congruence|]. intros _.
  destruct l as [|b l]; [reflexivity|].
  change (last (map f (a :: b :: l)) d') with (last (map f (b :: l)) d').
  change (last (a :: b :: l) d) with (last (b :: l) d).
  apply IH. congruence.
Qed.

Lemma last_In {A : Type} (l : list A) (d : A) : l <> [] -> In (last l d) l.
Proof.
  induction l as [|a l IH]; [congruence|]. intros _.
  destruct l as [|b l]; [now left|].
  change (last (a :: b :: l) d) with (last (b :: l) d).
  right. apply IH. congruence.
Qed.

(** The step on a minibatch of one transition returns a NaN policy
    loss. *)
Lemma steps_last_nan (ds : Dataset) (idxs : list (list nat)) :
  forall (self : Agent) (dicts : list LossDict) (self' : Agent),
    steps ds self idxs = Some (dicts, self') ->
    idxs <> [] ->
    length (last idxs []) = 1%nat ->
    In None (map policy_loss dicts).
Proof.
  induction idxs as [|idx idxs IH]; intros self dicts self' Hs Hne Hlast;
    [congruence|].
  cbn [steps] in Hs.
  destruct (gather ds idx) as [batch|] eqn:Hg; [|discriminate].
  pose proof (update_step_dict self batch) as Hd.
  destruct (update_step self batch) as [d self1]. cbn [fst] in Hd.
  destruct (steps ds self1 idxs) as [[dicts1 self2]|] eqn:Hs1;
    [|discriminate].
  injection Hs as <- <-. cbn [map].
  destruct idxs as [|idx' idxs].
  - left. cbn [last] in Hlast.
    destruct (gather_fields ds idx batch Hg) as (_ & _ & Hadv & _).
    apply take_length in Hadv. rewrite Hlast in Hadv.
    destruct (b_advantage batch) as [|a [|b t]] eqn:Ha; try discriminate.
    rewrite Hd.
    now apply (normalize_advantage_single self batch a).
  - right. apply (IH self1 dicts1 self2 Hs1); [congruence|].
    exact Hlast.
Qed.

Lemma run_epochs_last (ds : Dataset) (sched : list (list (list nat))) :
  forall (self : Agent) (dictss : list (list LossDict)) (self' : Agent),
    run_epochs ds self sched = Some (dictss, self') ->
    sched <> [] ->
    exists a a' : Agent,
      steps ds a (last sched []) = Some (last dictss [], a').
Proof.
  induction sched as [|epoch sched IH]; intros self dictss self' Hr Hne;
    [congruence|].
  cbn [run_epochs] in Hr.
  destruct (steps ds self epoch) as [[dicts self1]|] eqn:Hs;
    [|discriminate].
  destruct (run_epochs ds self1 sched) as [[dd self2]|] eqn:Hr1;
    [|discriminate].
  injection Hr as <- <-.
  destruct sched as [|epoch' sched].
  - cbn [run_epochs] in Hr1. injection Hr1 as <- <-.
    now exists self, self1.
  - destruct (IH self1 dd self2 Hr1 ltac:(congruence)) as (a & a' & Ha).
    exists a, a'.
    assert (Hdd : dd <> []).
    { cbn [run_epochs] in Hr1.
      destruct (steps ds self1 epoch'); [|discriminate].
      destruct p as [x y]. destruct (run_epochs ds y sched);
        [|discriminate].
      destruct p as [u v]. injection Hr1 as <- _. congruence. }
    change (last (epoch :: epoch' :: sched) [])
      with (last (epoch' :: sched) []).
    destruct dd as [|d0 dd]; [congruence|].
    change (last (dicts :: d0 :: dd) []) with (last (d0 :: dd) []).
    exact Ha.
Qed.

Lemma ceil_div_rem_1 (n m : nat) :
  (2 <= m)%nat -> (n mod m = 1)%nat -> ceil_div n m = S (n / m).
Proof.
  intros Hm Hr. unfold ceil_div.
  pose proof (Nat.div_mod_eq n m) as Hn. rewrite Hr in Hn.
  replace (n + m - 1)%nat with ((n / m + 1) * m)%nat by nia.
  rewrite Nat.div_mul by lia. lia.
Qed.

Lemma length_slice {A : Type} (l : list A) (start stop : nat) :
  length (slice l start stop)
  = Nat.min (stop - start) (length l - start).
Proof. unfold slice. now rewrite length_firstn, length_skipn. Qed.

(** With one index left over the last minibatch of an epoch holds that
    index alone. *)
Lemma minibatches_last_single (m n : nat) (order : list nat) :
  (2 <= m)%nat -> (n mod m = 1)%nat -> length order = n ->
  minibatches m n order <> []
  /\ length (last (minibatches m n order) []) = 1%nat.
Proof.
  intros Hm Hr Hl. unfold minibatches.
  rewrite (range_from_spec m ltac:(lia)) by lia.
  rewrite Nat.sub_0_r, (ceil_div_rem_1 n m Hm Hr), seq_S, !map_app.
  cbn [map Nat.add]. split.
  - intros Hnil. apply app_eq_nil in Hnil. destruct Hnil; discriminate.
  - rewrite last_last, length_slice, Hl.
    pose proof (Nat.div_mod_eq n m) as Hn. rewrite Hr in Hn. nia.
Qed.

(** X18: whenever the buffer size leaves a remainder of 1 modulo the
    minibatch size, the last step of every epoch is on one transition, and
    the policy loss that [update] returns is NaN. *)
Theorem update_policy_loss_nan (self : Agent) (buffer : Buffer)
  (rng : NpRng) :
  dataset_rows (fst (make_dataset buffer)) (buffer_size buffer) ->
  (0 < update_epochs self)%nat ->
  (2 <= mini_batch_size self)%nat ->
  (buffer_size buffer mod mini_batch_size self = 1)%nat ->
  exists (stats : LossDict) (self' : Agent) (rng' : NpRng)
    (buffer' : Buffer),
    update self buffer rng = Some (stats, self', rng', buffer')
    /\ policy_loss stats = nan.
Proof.
  intros Hds HE Hm Hr.
  destruct (update_loops_spec shuffle_perm self buffer rng Hds ltac:(lia))
    as (dictss & self' & Hrun & Hlen & Hloops).
  unfold update. rewrite Hloops. do 4 eexists. split; [reflexivity|].
  cbn [policy_loss l_policy_losses]. apply np_mean_nan.
  assert (Horders : epoch_orders (update_epochs self)
                      (seq 0 (buffer_size buffer)) rng <> []).
  { intros Hnil. apply (f_equal (@length _)) in Hnil.
    rewrite epoch_orders_length in Hnil. cbn in Hnil. lia. }
  assert (Hsched : update_schedule self buffer rng <> []).
  { unfold update_schedule, schedule. intros Hnil.
    apply map_eq_nil in Hnil. contradiction. }
  destruct (run_epochs_last _ _ _ _ _ Hrun Hsched) as (a & a' & Hsteps).
  unfold update_schedule, schedule in Hsteps.
  rewrite (last_map _ _ (seq 0 (buffer_size buffer))) in Hsteps
    by assumption.
  pose proof (epoch_orders_perm shuffle_perm (buffer_size buffer)
                (update_epochs self) (seq 0 (buffer_size buffer)) rng
                (Permutation_refl _)) as Hall.
  rewrite Forall_forall in Hall.
  destruct (perm_seq_range _ _
              (Hall _ (last_In _ (seq 0 (buffer_size buffer)) Horders)))
    as [_ Hl].
  destruct (minibatches_last_single _ _ _ Hm Hr Hl) as [Hne Hone].
  exact (steps_last_nan _ _ _ _ _ Hsteps Hne Hone).
Qed.

(** *** A dataset with too few rows *)

Lemma take_None {A : Type} (xs : list A) (idx : list nat) (i : nat) :
  In i idx -> (length xs <= i)%nat -> take xs idx = None.
Proof.
  intros Hin Hi. induction idx as [|j idx IH]; [destruct Hin|].
  cbn [take]. destruct Hin as [->|Hin].
  - apply nth_error_None in Hi. now rewrite Hi.
  - rewrite (IH Hin). now destruct (nth_error xs j).
Qed.

Lemma gather_None (ds : Dataset) (n : nat) (idx : list nat) :
  dataset_short ds n -> In (n - 1)%nat idx -> gather ds idx = None.
Proof.
  intros Hshort Hin. unfold gather.
  destruct Hshort as [Hs|[Hs|[Hs|[Hs|[Hs|Hs]]]]];
    [rewrite (take_None (states ds) idx (n - 1)) by (assumption || lia)
    |rewrite (take_None (actions ds) idx (n - 1)) by (assumption || lia)
    |rewrite (take_None (old_log_probs ds) idx (n - 1))
       by (assumption || lia)
    |rewrite (take_None (old_values ds) idx (n - 1)) by (assumption || lia)
    |rewrite (take_None (advantages ds) idx (n - 1)) by (assumption || lia)
    |rewrite (take_None (returns ds) idx (n - 1)) by (assumption || lia)];
    repeat match goal with
           | |- context [match take ?xs idx with _ => _ end] =>
               destruct (take xs idx)
           end; reflexivity.
Qed.

Lemma minibatch_loop_fail (e : nat) (starts : list nat) :
  forall st : Loop,
    Exists (fun start =>
              gather (l_dataset st)
                (slice (l_indices st) start
                   (start + mini_batch_size (l_self st))) = None)
      starts ->
    foldM (minibatch_body e) starts st = None.
Proof.
  induction starts as [|start starts IH]; intros st Hex;
    [inversion Hex|].
  cbn [foldM]. unfold minibatch_body at 1.
  destruct (gather (l_dataset st) _) as [batch|] eqn:Hg; [|reflexivity].
  destruct (update_step_fields (l_self st) batch) as (_ & _ & Hm).
  destruct (update_step (l_self st) batch) as [d self1]. cbn [snd] in Hm.
  inversion Hex as [? ? Hhead|? ? Htail]; subst; [congruence|].
  destruct (_ =? _)%Z; apply IH;
    cbn [l_dataset l_indices l_self]; rewrite Hm; exact Htail.
Qed.

(** X19: if an array of the dataset has fewer rows than
    [buffer.size * buffer.num_envs], [update] raises ([IndexError]) in its
    first epoch. *)
Theorem update_short_dataset (self : Agent) (buffer : Buffer) (rng : NpRng) :
  dataset_short (fst (make_dataset buffer)) (buffer_size buffer) ->
  (0 < update_epochs self)%nat ->
  (0 < mini_batch_size self)%nat ->
  update self buffer rng = None.
Proof.
  intros Hshort HE Hm. unfold update, update_loops.
  fold (buffer_size buffer).
  destruct (make_dataset buffer) as [ds buffer']. cbn [fst] in Hshort.
  destruct (update_epochs self) as [|E]; [lia|]. cbn [seq foldM].
  assert (Hn : (0 < buffer_size buffer)%nat).
  { unfold dataset_short in Hshort. lia. }
  assert (Hbody : epoch_body (buffer_size buffer)
                    (mkLoop self rng buffer' ds
                       (seq 0 (buffer_size buffer)) [] [] []) 0 = None).
  { unfold epoch_body. cbn [l_indices l_rng l_self].
    pose proof (shuffle_perm (seq 0 (buffer_size buffer)) rng) as Hp.
    destruct (shuffle (seq 0 (buffer_size buffer)) rng) as [order rng'].
    cbn [fst] in Hp. apply Permutation_sym in Hp.
    destruct (perm_seq_range _ _ Hp) as [_ Hl].
    unfold range0.
    destruct (Nat.eqb_spec (mini_batch_size self) 0); [lia|].
    apply minibatch_loop_fail.
    cbn [l_dataset l_indices l_self].
    destruct (minibatches_partition (mini_batch_size self)
                (buffer_size buffer) order Hm Hl) as [[Hc _] _].
    assert (Hin : In (buffer_size buffer - 1)%nat order).
    { apply (Permutation_in _ (Permutation_sym Hp)), in_seq. lia. }
    rewrite <- Hc in Hin. apply in_concat in Hin.
    destruct Hin as (mb & Hmb & Hin). unfold minibatches in Hmb.
    apply in_map_iff in Hmb. destruct Hmb as (start & <- & Hstart).
    apply Exists_exists. exists start. split; [exact Hstart|].
    now apply gather_None with (buffer_size buffer). }
  now rewrite Hbody.
Qed.

End Further.

(** ** The further properties at the small instance *)


Lemma surrogate_on_policy_witness :
  0 <= clip_range (toy_agent None 2)
  /\ length [1; 2] = length [3; -1]
  /\ get_clipped_surrogate_loss (toy_agent None 2) [1; 2] [1; 2] [3; -1]
     = fneg (mean [3; -1]).
Proof.
  assert (Hc : 0 <= clip_range (toy_agent None 2)) by (cbn; lra).
  split; [exact Hc|]. split; [reflexivity|].
  apply surrogate_on_policy; [exact Hc|reflexivity].
Defined.


Lemma value_loss_bounds_witness :
  [0; 1] <> []
  /\ length [2; 3] = length [0; 1]
  /\ length [0; 0] = length [0; 1]
  /\ exists v mse : R,
      get_value_loss (toy_agent (Some 1) 2) [2; 3] [0; 0] [0; 1] = Some v
      /\ mse_spec [2; 3] [0; 1] = Some mse
      /\ 0 <= v <= mse.
Proof.
  assert (Hne : [0; 1] <> []) by discriminate.
  split; [exact Hne|]. split; [reflexivity|]. split; [reflexivity|].
  apply value_loss_bounds; [exact Hne|reflexivity|reflexivity].
Defined.

Lemma value_loss_clip_idle_witness :
  value_clip_range (toy_agent (Some 1) 2) = Some 1
  /\ Forall2 (fun v o => o - 1 <= v <= o + 1) [2; 3] [2; 4]
  /\ length [2; 3] = length [0; 1]
  /\ get_value_loss (toy_agent (Some 1) 2) [2; 3] [2; 4] [0; 1]
     = mse_spec [2; 3] [0; 1].
Proof.
  assert (Hin : Forall2 (fun v o => o - 1 <= v <= o + 1) [2; 3] [2; 4])
    by (repeat constructor; lra).
  split; [reflexivity|]. split; [exact Hin|]. split; [reflexivity|].
  apply (value_loss_clip_idle (toy_agent (Some 1) 2) 1);
    [reflexivity|exact Hin|reflexivity].
Defined.

Lemma normalize_advantage_mean_witness :
  normalize_advantage [5; 5] = Some [0; 0]
  /\ length [0; 0] = length [5; 5]
  /\ mean [0; 0] = Some 0.
Proof.
  assert (Hn : normalize_advantage [5; 5] = Some [0; 0])
    by (apply (normalize_advantage_constant 5 2); lia).
  split; [exact Hn|]. apply (normalize_advantage_mean [5; 5] [0; 0] Hn).
Defined.


Lemma update_no_epochs_witness :
  update_epochs toy_idle_agent = 0%nat
  /\ update toy_idle_agent toy_buffer 0%nat
     = Some (mkLossDict nan nan nan, toy_idle_agent, 0%nat,
             snd (make_dataset toy_buffer)).
Proof.
  split; [reflexivity|].
  exact (update_no_epochs toy_idle_agent toy_buffer 0%nat eq_refl).
Defined.

Lemma update_zero_batch_size_witness :
  mini_batch_size (toy_agent None 0) = 0%nat
  /\ (0 < update_epochs (toy_agent None 0))%nat
  /\ update (toy_agent None 0) toy_buffer 0%nat = None.
Proof.
  assert (HE : (0 < update_epochs (toy_agent None 0))%nat) by (cbn; lia).
  split; [reflexivity|]. split; [exact HE|].
  exact (update_zero_batch_size (toy_agent None 0) toy_buffer 0%nat eq_refl
           HE).
Defined.

Lemma update_empty_buffer_witness :
  buffer_size (@nil toy_row) = 0%nat
  /\ (0 < mini_batch_size (toy_agent None 2))%nat
  /\ exists rng' : NpRng,
      update (toy_agent None 2) (@nil toy_row) 0%nat
      = Some (mkLossDict nan nan nan, toy_agent None 2, rng',
              snd (make_dataset (@nil toy_row))).
Proof.
  assert (Hm : (0 < mini_batch_size (toy_agent None 2))%nat) by (cbn; lia).
  split; [reflexivity|]. split; [exact Hm|].
  exact (update_empty_buffer (toy_agent None 2) (@nil toy_row) 0%nat eq_refl
           Hm).
Defined.

Lemma run_config_witness :
  run [m_get_value [0%nat]; m_update_step toy_batch; m_save "best_"%string]
    toy_world
  = Some (mkWorld
            (mkAgent toy_net toy_net tt (1 / 200) (99 / 100) (1 / 5) (1 / 2)
               None (1 / 100) 2 2 1)
            0%nat 0%nat
            (save
               (mkAgent toy_net toy_net tt (1 / 200) (99 / 100) (1 / 5)
                  (1 / 2) None (1 / 100) 2 2 1)
               "best_"%string []))
  /\ same_config (w_agent toy_world)
       (mkAgent toy_net toy_net tt (1 / 200) (99 / 100) (1 / 5) (1 / 2)
          None (1 / 100) 2 2 1).
Proof.
  assert (Hr : run [m_get_value [0%nat]; m_update_step toy_batch;
                    m_save "best_"%string] toy_world
               = Some (mkWorld
                         (mkAgent toy_net toy_net tt (1 / 200) (99 / 100)
                            (1 / 5) (1 / 2) None (1 / 100) 2 2 1)
                         0%nat 0%nat
                         (save
                            (mkAgent toy_net toy_net tt (1 / 200) (99 / 100)
                               (1 / 5) (1 / 2) None (1 / 100) 2 2 1)
                            "best_"%string [])))
    by reflexivity.
  split; [exact Hr|]. exact (run_config _ _ _ Hr).
Defined.

Lemma update_full_batch_witness :
  (forall (l : list nat) (g : NpRng),
      Permutation l (fst (@shuffle toy_substrate toy_library l g)))
  /\ (0 < buffer_size toy_buffer <= mini_batch_size (toy_agent None 5))%nat
  /\ update_schedule (toy_agent None 5) toy_buffer 0%nat
     = map (fun order => [order])
         (epoch_orders (update_epochs (toy_agent None 5))
            (seq 0 (buffer_size toy_buffer)) 0%nat).
Proof.
  assert (Hn : (0 < buffer_size toy_buffer
                <= mini_batch_size (toy_agent None 5))%nat) by (cbn; lia).
  split; [exact toy_shuffle_perm|]. split; [exact Hn|].
  exact (update_full_batch toy_shuffle_perm (toy_agent None 5) toy_buffer
           0%nat Hn).
Defined.

Lemma update_policy_loss_nan_witness :
  (forall (l : list nat) (g : NpRng),
      Permutation l (fst (@shuffle toy_substrate toy_library l g)))
  /\ dataset_rows (fst (make_dataset toy_buffer)) (buffer_size toy_buffer)
  /\ (0 < update_epochs (toy_agent None 2))%nat
  /\ (2 <= mini_batch_size (toy_agent None 2))%nat
  /\ (buffer_size toy_buffer mod mini_batch_size (toy_agent None 2)
      = 1)%nat
  /\ exists (stats : LossDict) (self' : Agent) (rng' : NpRng)
       (buffer' : Buffer),
      update (toy_agent None 2) toy_buffer 0%nat
      = Some (stats, self', rng', buffer')
      /\ policy_loss stats = nan.
Proof.
  assert (HE : (0 < update_epochs (toy_agent None 2))%nat) by (cbn; lia).
  assert (Hm : (2 <= mini_batch_size (toy_agent None 2))%nat)
    by (cbn; lia).
  split; [exact toy_shuffle_perm|]. split; [exact toy_rows|].
  split; [exact HE|]. split; [exact Hm|]. split; [reflexivity|].
  exact (update_policy_loss_nan toy_shuffle_perm (toy_agent None 2)
           toy_buffer 0%nat toy_rows HE Hm eq_refl).
Defined.

Lemma update_short_dataset_witness :
  (forall (l : list nat) (g : NpRng),
      Permutation l (fst (@shuffle toy_substrate short_library l g)))
  /\ dataset_short
       (fst (@make_dataset toy_substrate short_library toy_buffer))
       (@buffer_size toy_substrate short_library toy_buffer)
  /\ (0 < update_epochs (toy_agent None 2))%nat
  /\ (0 < mini_batch_size (toy_agent None 2))%nat
  /\ @update toy_substrate short_library (toy_agent None 2) toy_buffer
       0%nat = None.
Proof.
  assert (Hp : forall (l : list nat) (g : NpRng),
             Permutation l
               (fst (@shuffle toy_substrate short_library l g)))
    by (intros l g; apply Permutation_rev).
  assert (Hs : dataset_short
                 (fst (@make_dataset toy_substrate short_library toy_buffer))
                 (@buffer_size toy_substrate short_library toy_buffer))
    by (left; cbn; lia).
  assert (HE : (0 < update_epochs (toy_agent None 2))%nat) by (cbn; lia).
  assert (Hm : (0 < mini_batch_size (toy_agent None 2))%nat) by (cbn; lia).
  split; [exact Hp|]. split; [exact Hs|]. split; [exact HE|].
  split; [exact Hm|].
  exact (@update_short_dataset toy_substrate short_library Hp
           (toy_agent None 2) toy_buffer 0%nat Hs HE Hm).
Defined.
